(** * Boy's surface generator: constructor, evaluator and mesh topology

    A shallow embedding of [src/boy_surface/boy_surface.py]
    (class [BoysSurfaceGenerator]) together with the properties its
    specification states about it.

    Modelling conventions.
    - Python [int] is [Z]; [%] and [//] with a positive right operand are
      [Z.modulo] and [Z.div] (both floor, sign of the divisor).
    - A Python [float] that enters the constructor is a binary64 value
      ([spec_float] of the Standard Library with precision 53 and maximal
      exponent 1024): NaN, the infinities, signed zeros and finite values.
      [ratio * resolution] converts the [int] to the nearest float (ties to
      even, [OverflowError] when out of range) and multiplies in binary64
      with [SFmul]; comparison with an [int] and [round] work on the exact
      value of the float, as Python does.
    - The evaluator works on complex numbers over the real numbers of the
      Standard Library; rounding of IEEE arithmetic is not modelled there,
      and every statement about values of the evaluator is a statement in
      exact arithmetic.
    - [raise E(msg)] is the left injection of a sum type; the exceptions
      raised by the interpreter itself on lines 91 and 92 are included.
    - [faces.extend(..)] / [faces.append(..)] on the local list is explicit
      accumulator passing through [fold_left]. *)

From Stdlib Require Import ZArith QArith Qround List String Ascii DecimalString Bool Lia.
From Stdlib Require Import Qpower Qfield SpecFloat.
From Stdlib Require Import Reals Lra RNsatz.
Import ListNotations.

#[local] Open Scope Z_scope.

(** ** Python primitives *)

(** The exceptions that construction can end in. *)
Inductive exn : Type :=
| ValueError (msg : string)
| OverflowError (msg : string).

Module Py.

(** [range(n)]: the integers [0, 1, ..., n-1] (empty when [n <= 0]). *)
Definition range (n : Z) : list Z :=
  map Z.of_nat (seq 0 (Z.to_nat n)).

(** [round(x)] on a float: nearest integer, ties to the even one. *)
Definition round (x : Q) : Z :=
  let f := Qfloor x in
  let d := (x - inject_Z f)%Q in
  match (d ?= 1 # 2)%Q with
  | Lt => f
  | Gt => f + 1
  | Eq => if Z.even f then f else f + 1
  end.

(** Truthiness of an [int] used as a condition. *)
Definition truthy (z : Z) : bool := negb (z =? 0).

(** [x < y] on exact values. *)
Definition flt (x y : Q) : bool := negb (Qle_bool y x).

(** *** Binary64 floats *)

Definition float : Type := spec_float.
Definition prec : Z := 53.
Definition emax : Z := 1024.

(** The float nearest to [m * 2^e]; it has exactly this value when the
    value is representable.  Used to write float literals:
    [0.3 = 0x1.3333333333333p-2 = b64 5404319552844595 (-54)]. *)
Definition b64 (m e : Z) : float := binary_normalize prec emax m e false.

Definition nan : float := S754_nan.
Definition inf : float := S754_infinity false.

Definition is_finite (x : float) : bool :=
  match x with
  | S754_zero _ | S754_finite _ _ _ => true
  | S754_infinity _ | S754_nan => false
  end.

(** The exact value of a finite float (and [0] for the others). *)
Definition F2Q (x : float) : Q :=
  match x with
  | S754_finite s m e => inject_Z (if s then Zneg m else Zpos m) * Qpower 2 e
  | _ => 0
  end.

(** Messages of the interpreter's own exceptions. *)
Definition msg_int_too_large : string := "int too large to convert to float".
Definition msg_round_nan : string := "cannot convert float NaN to integer".
Definition msg_round_inf : string := "cannot convert float infinity to integer".

(** Conversion of an [int] operand of a float operation: the nearest
    float, ties to even; [OverflowError] when that is out of range. *)
Definition float_of_int (z : Z) : exn + float :=
  match binary_normalize prec emax z 0 false with
  | S754_infinity _ => inl (OverflowError msg_int_too_large)
  | x => inr x
  end.

(** [x * y] on floats. *)
Definition fmul (x y : float) : float := SFmul prec emax x y.

(** [x < k] for a float [x] and an [int] [k]: the exact values are
    compared; a NaN compares false. *)
Definition flt_int (x : float) (k : Z) : bool :=
  match x with
  | S754_nan => false
  | S754_infinity s => s
  | S754_zero _ | S754_finite _ _ _ => flt (F2Q x) (inject_Z k)
  end.

(** [int(round(x))] on a float. *)
Definition round_float (x : float) : exn + Z :=
  match x with
  | S754_nan => inl (ValueError msg_round_nan)
  | S754_infinity _ => inl (OverflowError msg_round_inf)
  | S754_zero _ | S754_finite _ _ _ => inr (round (F2Q x))
  end.

End Py.

(** ** Construction and parameter validation ([__init__]) *)

(** The object state after a successful [__init__]. *)
Record BoysSurfaceGenerator : Type := mkGen {
  n_r : Z;      (* number of concentric rings *)
  n_phi : Z     (* vertices on each ring *)
}.

Definition msg_resolution : string := "resolution must be at least 2.".

(** The second message of the source ends in the three UTF-8 bytes of the
    "greater than or equal" sign followed by [" 4."]. *)
Definition msg_n_phi : string :=
  ("ratio * resolution must be an even integer "
     ++ String (ascii_of_nat 226) (String (ascii_of_nat 137)
          (String (ascii_of_nat 165) " 4.")))%string.

(** Line 91, [n_phi = ratio * resolution]: a float times an [int]. *)
Definition product (resolution : Z) (ratio : Py.float) : exn + Py.float :=
  match Py.float_of_int resolution with
  | inl e => inl e
  | inr r => inr (Py.fmul ratio r)
  end.

(** [__init__], with [resolution] an [int] and [ratio] a [float] as the
    signature declares.  The [or] of line 92 evaluates [int(round(n_phi))]
    only when [n_phi < 4] is false; line 97 computes the same integer
    again. *)
Definition init (resolution : Z) (ratio : Py.float) : exn + BoysSurfaceGenerator :=
  if resolution <? 2 then inl (ValueError msg_resolution)
  else
    match product resolution ratio with
    | inl e => inl e
    | inr n_phi =>
        if Py.flt_int n_phi 4 then inl (ValueError msg_n_phi)
        else
          match Py.round_float n_phi with
          | inl e => inl e
          | inr k =>
              if Py.truthy (k mod 2) then inl (ValueError msg_n_phi)
              else inr {| n_r := resolution; n_phi := k |}
          end
    end.

(** Lines 92 to 97 as one function of the product of line 91; [init_guard]
    below shows that [init] is this function after the product. *)
Definition guard (resolution : Z) (p : Py.float) : exn + BoysSurfaceGenerator :=
  match p with
  | S754_nan => inl (ValueError Py.msg_round_nan)
  | S754_infinity false => inl (OverflowError Py.msg_round_inf)
  | S754_infinity true => inl (ValueError msg_n_phi)
  | S754_zero _ | S754_finite _ _ _ =>
      if Py.flt (Py.F2Q p) 4 || Py.truthy (Py.round (Py.F2Q p) mod 2)
      then inl (ValueError msg_n_phi)
      else inr {| n_r := resolution; n_phi := Py.round (Py.F2Q p) |}
  end.

(** What the documentation calls a valid configuration. *)
Definition valid (g : BoysSurfaceGenerator) : Prop :=
  2 <= n_r g /\ 4 <= n_phi g /\ n_phi g mod 2 = 0.

(** ** Complex numbers over the reals (the [complex128] values of [_xyz]) *)

Module Cplx.

#[local] Open Scope R_scope.

Definition C : Type := (R * R)%type.

Definition RtoC (x : R) : C := (x, 0).
Definition C0 : C := RtoC 0.            (* 0j *)
Definition C1 : C := RtoC 1.
Definition Ci : C := (0, 1).            (* 1j *)

Definition Re (z : C) : R := fst z.     (* np.real *)
Definition Im (z : C) : R := snd z.     (* np.imag *)

Definition Cadd (z w : C) : C := (fst z + fst w, snd z + snd w).
Definition Csub (z w : C) : C := (fst z - fst w, snd z - snd w).
Definition Cmul (z w : C) : C :=
  (fst z * fst w - snd z * snd w, fst z * snd w + snd z * fst w).

(** Squared modulus. *)
Definition Cnorm2 (z : C) : R := fst z * fst z + snd z * snd z.

Definition Cdiv (z w : C) : C :=
  ((fst z * fst w + snd z * snd w) / Cnorm2 w,
   (snd z * fst w - fst z * snd w) / Cnorm2 w).

(** [w ** n] for a literal natural exponent. *)
Fixpoint Cpow (w : C) (n : nat) : C :=
  match n with
  | O => C1
  | S n' => Cmul w (Cpow w n')
  end.

(** [np.exp] on a complex argument. *)
Definition Cexp (z : C) : C := (exp (fst z) * cos (snd z), exp (fst z) * sin (snd z)).

End Cplx.

Import Cplx.

(** ** The Bryant-Kusner immersion ([_xyz]) *)

Module Immersion.

#[local] Open Scope R_scope.

Definition Point3 : Type := (R * R * R)%type.

Definition sqrt5 : R := sqrt 5.          (* math.sqrt(5) *)

(** The locals of [_xyz], each as a function of the argument [w]. *)
Definition z6 (w : C) : C := Cpow w 6.

Definition denom (w : C) : C :=
  Csub (Cadd (z6 w) (Cmul (RtoC sqrt5) (Cpow w 3))) C1.

Definition g1 (w : C) : R :=
  -1.5 * Im (Cdiv (Cmul w (Csub C1 (Cpow w 4))) (denom w)).

Definition g2 (w : C) : R :=
  -1.5 * Re (Cdiv (Cmul w (Cadd C1 (Cpow w 4))) (denom w)).

Definition g3 (w : C) : R :=
  Im (Cdiv (Cadd C1 (z6 w)) (denom w)) - 0.5.

Definition g (w : C) : R := g1 w ^ 2 + g2 w ^ 2 + g3 w ^ 2.

Definition _xyz (w : C) : Point3 := (g1 w / g w, g2 w / g w, g3 w / g w).

(** The positive real cube root of [(3 - sqrt 5) / 2], about [0.7256],
    as a point of the real axis of the parameter disk. *)
Definition pole : C := (Rpower ((3 - sqrt5) / 2) (/ 3), 0).

End Immersion.

Import Immersion.

(** ** The mesh builder ([build]) *)

Definition Face : Type := (Z * Z * Z)%type.

Record Mesh : Type := mkMesh {
  vertices : list Point3;
  faces : list Face
}.

Module Grid.

#[local] Open Scope R_scope.

(** [np.linspace(start, stop, num, endpoint=..)]. *)
Definition linspace (start stop : R) (num : Z) (endpoint : bool) : list R :=
  let div := if endpoint then (num - 1)%Z else num in
  let step := (stop - start) / IZR div in
  map (fun i => start + IZR i * step) (Py.range num).

(** Step 1 of [build]: the complex parameter grid, flattened ring by ring
    as [ravel] does for the ["ij"] meshgrid. *)
Definition w_grid (n_r ring : Z) : list C :=
  let r_vals := tl (linspace 0 1 n_r true) in
  let phi_vals := linspace 0 (2 * PI) ring false in
  flat_map (fun r => map (fun phi => Cmul (RtoC r) (Cexp (Cmul Ci (RtoC phi)))) phi_vals)
           r_vals.

(** Step 2 of [build]: grid vertices with the centre vertex prepended. *)
Definition build_vertices (n_r ring : Z) : list Point3 :=
  let verts_np := map _xyz (w_grid n_r ring) in
  let centre_xyz := _xyz C0 in
  centre_xyz :: verts_np.

End Grid.

Module Topology.

(** Helper indices (1-based). *)
Definition centre_idx : Z := 1.
Definition first_ring_start : Z := 2.
Definition outer_ring_start (n_r ring : Z) : Z := first_ring_start + (n_r - 2) * ring.
Definition half_turn (ring : Z) : Z := ring / 2.

(** Body of the inner loop of step 3-a. *)
Definition strip_cell (ring inner outer j : Z) : list Face :=
  let a := inner + j in
  let b := outer + j in
  let c := outer + (j + 1) mod ring in
  let d := inner + (j + 1) mod ring in
  [(a, b, c); (a, c, d)].

(** Step 3-a: radial strips. *)
Definition radial_strips (n_r ring : Z) (faces : list Face) : list Face :=
  fold_left
    (fun faces i =>
       let inner := first_ring_start + i * ring in
       let outer := inner + ring in
       fold_left (fun faces j => faces ++ strip_cell ring inner outer j)
                 (Py.range ring) faces)
    (Py.range (n_r - 2)) faces.

(** Body of the loop of step 3-b. *)
Definition mobius_cell (n_r ring j : Z) : list Face :=
  let a := outer_ring_start n_r ring + j in
  let an := outer_ring_start n_r ring + (j + 1) mod ring in
  let b := outer_ring_start n_r ring + (j + half_turn ring) mod ring in
  let bn := outer_ring_start n_r ring + (j + half_turn ring + 1) mod ring in
  [(an, b, a); (an, bn, b)].

(** Step 3-b: the outer ring glued to itself. *)
Definition mobius_strip (n_r ring : Z) (faces : list Face) : list Face :=
  fold_left (fun faces j => faces ++ mobius_cell n_r ring j) (Py.range ring) faces.

(** Body of the loop of step 3-c. *)
Definition fan_cell (ring j : Z) : Face :=
  let v2 := first_ring_start + j in
  let v3 := first_ring_start + (j + 1) mod ring in
  (centre_idx, v3, v2).

(** Step 3-c: central fan. *)
Definition central_fan (ring : Z) (faces : list Face) : list Face :=
  fold_left (fun faces j => faces ++ [fan_cell ring j]) (Py.range ring) faces.

(** Step 3 of [build]. *)
Definition build_faces (n_r ring : Z) : list Face :=
  let faces := [] in
  let faces := radial_strips n_r ring faces in
  let faces := mobius_strip n_r ring faces in
  let faces := central_fan ring faces in
  faces.

End Topology.

Import Topology.

(** [build], up to the hand-over of the two lists to the host. *)
Definition build (self : BoysSurfaceGenerator) : Mesh :=
  let ring := n_phi self in
  {| vertices := Grid.build_vertices (n_r self) ring;
     faces := build_faces (n_r self) ring |}.

(** Constructing a generator and building its mesh, as the demo entry
    point does. *)
Definition construct_and_build (resolution : Z) (ratio : Py.float) : exn + Mesh :=
  match init resolution ratio with
  | inl e => inl e
  | inr self => inr (build self)
  end.

(** ** String helpers used to talk about error messages *)

(** [contains sub s]: [sub] occurs in [s] as a contiguous substring. *)
Fixpoint contains (sub s : string) : bool :=
  String.prefix sub s ||
  match s with
  | EmptyString => false
  | String _ s' => contains sub s'
  end.

(** Decimal rendering of an integer, as [str] gives it. *)
Definition decimal (z : Z) : string := NilZero.string_of_int (Z.to_int z).


(** ** The specification's own wording

    These definitions follow the specification text, not the source; the
    theorems below compare them with [init] and [build_faces]. *)

Module Spec.

(** Vertex [k] (taken modulo the ring size) of ring number [i], rings
    counted outward from 0, indices 1-based with the centre at index 1. *)
Definition ring_vertex (ring i k : Z) : Z := 2 + i * ring + k mod ring.

(** The opposite index on a ring. *)
Definition opposite (n_phi j : Z) : Z := (j + n_phi / 2) mod n_phi.

(** Radial strips: two triangles per quad between ring [i] and ring [i+1]. *)
Definition strip_faces (n_r ring : Z) : list Face :=
  flat_map
    (fun i =>
       flat_map
         (fun j =>
            [(ring_vertex ring i j, ring_vertex ring (i + 1) j, ring_vertex ring (i + 1) (j + 1));
             (ring_vertex ring i j, ring_vertex ring (i + 1) (j + 1), ring_vertex ring i (j + 1))])
         (Py.range ring))
    (Py.range (n_r - 2)).

(** Moebius join on the outermost ring (ring number [n_r - 2]). *)
Definition mobius_faces (n_r ring : Z) : list Face :=
  let outer := ring_vertex ring (n_r - 2) in
  let half := ring / 2 in
  flat_map
    (fun j =>
       [(outer (j + 1), outer (j + half), outer j);
        (outer (j + 1), outer (j + half + 1), outer (j + half))])
    (Py.range ring).

(** Central fan around the centre vertex. *)
Definition fan_faces (ring : Z) : list Face :=
  map (fun j => (1, ring_vertex ring 0 (j + 1), ring_vertex ring 0 j)) (Py.range ring).

(** The grid sample [w = (m/(n_r-1)) * e^(i*2*pi*k/n_phi)]. *)
Definition grid_sample (n_r n_phi m k : Z) : C :=
  let r := (IZR m / IZR (n_r - 1))%R in
  let phi := (2 * PI * IZR k / IZR n_phi)%R in
  (r * cos phi, r * sin phi)%R.

(** The condition under which construction is described to fail:
    [n_r < 2], or [n_phi = round(ratio * resolution)] not an even integer
    that is at least 4. *)
Definition invalid_configuration (resolution : Z) (ratio : Py.float) : bool :=
  (resolution <? 2) ||
  match product resolution ratio with
  | inr p =>
      if Py.is_finite p
      then let n_phi := Py.round (Py.F2Q p) in negb (Z.even n_phi && (4 <=? n_phi))
      else true
  | inl _ => true
  end.


End Spec.

(** Whether a result is a raised exception. *)
Definition raises {T : Type} (r : exn + T) : bool :=
  match r with inl _ => true | inr _ => false end.

(** All the faces that one pass of the outer loop of step 3-a emits. *)
Definition strip_ring (ring i : Z) : list Face :=
  flat_map (strip_cell ring (first_ring_start + i * ring)
                       (first_ring_start + i * ring + ring))
           (Py.range ring).

(** Predicates on faces. *)
Definition face_indices (f : Face) : list Z :=
  let '(a, b, c) := f in [a; b; c].

Definition in_range (lo hi : Z) (f : Face) : Prop :=
  Forall (fun v => lo <= v <= hi) (face_indices f).

Definition pairwise_distinct (f : Face) : Prop :=
  let '(a, b, c) := f in a <> b /\ b <> c /\ a <> c.

(** Boolean versions, for evaluation on concrete meshes. *)
Definition face_okb (lo hi : Z) (f : Face) : bool :=
  let '(a, b, c) := f in
  forallb (fun v => (lo <=? v) && (v <=? hi)) [a; b; c]
  && negb (a =? b) && negb (b =? c) && negb (a =? c).

Definition referenced (v : Z) (fs : list Face) : Prop :=
  exists f, In f fs /\ In v (face_indices f).

(** ** Reading the mesh

    The host reads a face entry as a 1-based position in the vertex list
    and a face as a cycle of three directed edges in winding order. *)

Definition vertex_at (m : Mesh) (v : Z) : option Point3 :=
  if v <? 1 then None else nth_error (vertices m) (Z.to_nat (v - 1)).

Definition directed_edges (f : Face) : list (Z * Z) :=
  let '(a, b, c) := f in [(a, b); (b, c); (c, a)].

(** A face two of whose corners are the same point of space. *)
Definition collapsed (m : Mesh) (f : Face) : Prop :=
  let '(a, b, c) := f in
  exists p,
    (vertex_at m a = Some p /\ vertex_at m b = Some p) \/
    (vertex_at m b = Some p /\ vertex_at m c = Some p) \/
    (vertex_at m a = Some p /\ vertex_at m c = Some p).

(** Maps of the parameter plane and of space used to state symmetries. *)
Definition Cneg (z : C) : C := (- fst z, - snd z)%R.

(** The primitive cube root of unity [e^(2 pi i / 3)]. *)
Definition omega3 : C := (- (1 / 2), sqrt 3 / 2)%R.

(** Rotation of space by a third of a turn about the third axis, in the
    sense that takes [_xyz w] to [_xyz (omega3 * w)]. *)
Definition rot3 (p : Point3) : Point3 :=
  let '(x, y, z) := p in
  (- (1 / 2) * x + sqrt 3 / 2 * y, - (sqrt 3 / 2) * x - 1 / 2 * y, z)%R.

(** Inversion in the unit sphere. *)
Definition invert (p : Point3) : Point3 :=
  let '(x, y, z) := p in
  let n := (x * x + y * y + z * z)%R in
  (x / n, y / n, z / n)%R.

(** The five errors construction can end in. *)
Definition init_errors : list exn :=
  [ValueError msg_resolution;
   OverflowError Py.msg_int_too_large;
   ValueError msg_n_phi;
   ValueError Py.msg_round_nan;
   OverflowError Py.msg_round_inf].

(** * Properties *)

(** ** Loops over [range] *)

Section Loops.

Context {A B : Type}.

Lemma fold_left_extend (f : A -> list B) (l : list A) (acc : list B) :
  fold_left (fun acc x => acc ++ f x) l acc = acc ++ flat_map f l.
Proof.
  revert acc; induction l as [|x l IH]; intros acc; simpl.
  - now rewrite app_nil_r.
  - now rewrite IH, app_assoc.
Qed.

Lemma fold_left_nested (h : A -> list B) (F : list B -> A -> list B) (l : list A) :
  (forall acc x, F acc x = acc ++ h x) ->
  forall acc, fold_left F l acc = acc ++ flat_map h l.
Proof.
  intros HF; induction l as [|x l IH]; intros acc; simpl.
  - now rewrite app_nil_r.
  - now rewrite IH, HF, app_assoc.
Qed.

Lemma flat_map_singleton (f : A -> B) (l : list A) :
  flat_map (fun x => [f x]) l = map f l.
Proof. induction l; simpl; congruence. Qed.

Lemma length_flat_map_const (f : A -> list B) (l : list A) (k : nat) :
  (forall x, In x l -> List.length (f x) = k) ->
  List.length (flat_map f l) = (List.length l * k)%nat.
Proof.
  induction l as [|x l IH]; intros Hk; simpl; [reflexivity|].
  rewrite length_app, Hk by (simpl; auto).
  rewrite IH by (intros; apply Hk; simpl; auto).
  lia.
Qed.

End Loops.

Lemma range_In (n j : Z) : In j (Py.range n) <-> 0 <= j < n.
Proof.
  unfold Py.range; rewrite in_map_iff; split.
  - intros (k & <- & Hk); apply in_seq in Hk; lia.
  - intros Hj; exists (Z.to_nat j); split; [lia|].
    apply in_seq; lia.
Qed.

Lemma range_length (n : Z) : List.length (Py.range n) = Z.to_nat n.
Proof. unfold Py.range; now rewrite length_map, length_seq. Qed.

Lemma radial_strips_eq (n_r ring : Z) (acc : list Face) :
  radial_strips n_r ring acc = acc ++ flat_map (strip_ring ring) (Py.range (n_r - 2)).
Proof.
  unfold radial_strips; apply fold_left_nested.
  intros acc' i; cbv zeta; apply fold_left_extend.
Qed.

Lemma mobius_strip_eq (n_r ring : Z) (acc : list Face) :
  mobius_strip n_r ring acc = acc ++ flat_map (mobius_cell n_r ring) (Py.range ring).
Proof. apply fold_left_extend. Qed.

Lemma central_fan_eq (ring : Z) (acc : list Face) :
  central_fan ring acc = acc ++ map (fan_cell ring) (Py.range ring).
Proof.
  unfold central_fan; rewrite (fold_left_extend (fun j => [fan_cell ring j])).
  now rewrite flat_map_singleton.
Qed.

Lemma build_faces_eq (n_r ring : Z) :
  build_faces n_r ring =
  flat_map (strip_ring ring) (Py.range (n_r - 2))
  ++ flat_map (mobius_cell n_r ring) (Py.range ring)
  ++ map (fan_cell ring) (Py.range ring).
Proof.
  unfold build_faces; cbv zeta.
  rewrite central_fan_eq, mobius_strip_eq, radial_strips_eq; simpl.
  now rewrite <- app_assoc.
Qed.

Example build_faces_4_6 :
  List.length (build_faces 4 6) = 42%nat /\
  forallb (face_okb 1 19) (build_faces 4 6) = true.
Proof. split; reflexivity. Qed.

(** ** Vertex and face counts *)

Lemma linspace_length (start stop : R) (num : Z) (endpoint : bool) :
  List.length (Grid.linspace start stop num endpoint) = Z.to_nat num.
Proof. unfold Grid.linspace; cbv zeta; now rewrite length_map, range_length. Qed.

Lemma tl_length {T : Type} (l : list T) : List.length (tl l) = pred (List.length l).
Proof. now destruct l. Qed.

Lemma w_grid_length (n_r ring : Z) :
  List.length (Grid.w_grid n_r ring) = (pred (Z.to_nat n_r) * Z.to_nat ring)%nat.
Proof.
  unfold Grid.w_grid; cbv zeta.
  rewrite (length_flat_map_const _ _ (Z.to_nat ring)).
  - now rewrite tl_length, linspace_length.
  - intros r _; now rewrite length_map, linspace_length.
Qed.

Lemma build_vertices_length (n_r ring : Z) :
  2 <= n_r -> 0 <= ring ->
  Z.of_nat (List.length (Grid.build_vertices n_r ring)) = 1 + (n_r - 1) * ring.
Proof.
  intros Hr Hp; unfold Grid.build_vertices; cbv zeta.
  simpl List.length; rewrite length_map, w_grid_length.
  rewrite Nat2Z.inj_succ, Nat2Z.inj_mul, Nat2Z.inj_pred by lia.
  rewrite !Z2Nat.id by lia; lia.
Qed.

Lemma strip_ring_length (ring i : Z) :
  List.length (strip_ring ring i) = (Z.to_nat ring * 2)%nat.
Proof.
  unfold strip_ring.
  rewrite (length_flat_map_const _ _ 2) by reflexivity.
  now rewrite range_length.
Qed.

Lemma build_faces_length (n_r ring : Z) :
  2 <= n_r -> 0 <= ring ->
  Z.of_nat (List.length (build_faces n_r ring)) = 2 * (n_r - 2) * ring + 2 * ring + ring.
Proof.
  intros Hr Hp; rewrite build_faces_eq, !length_app, length_map.
  rewrite (length_flat_map_const _ _ (Z.to_nat ring * 2))
    by (intros; apply strip_ring_length).
  rewrite (length_flat_map_const _ _ 2) by reflexivity.
  rewrite !range_length.
  rewrite !Nat2Z.inj_add, !Nat2Z.inj_mul, !Z2Nat.id by lia.
  change (Z.of_nat 2) with 2; ring.
Qed.

(** C3.  For every valid configuration ([n_r >= 2], even [n_phi >= 4]),
    [build] returns exactly [1 + (n_r - 1) * n_phi] vertices and exactly
    [2*(n_r-2)*n_phi + 2*n_phi + n_phi = 2*(n_r-1)*n_phi + n_phi]
    triangular faces. *)
Theorem build_counts (self : BoysSurfaceGenerator) :
  valid self ->
  Z.of_nat (List.length (vertices (build self))) = 1 + (n_r self - 1) * n_phi self /\
  Z.of_nat (List.length (faces (build self)))
    = 2 * (n_r self - 2) * n_phi self + 2 * n_phi self + n_phi self /\
  2 * (n_r self - 2) * n_phi self + 2 * n_phi self + n_phi self
    = 2 * (n_r self - 1) * n_phi self + n_phi self.
Proof.
  intros (Hr & Hp & _); unfold build; cbv zeta; simpl vertices; simpl faces.
  rewrite build_vertices_length, build_faces_length by lia.
  repeat split; ring.
Qed.

Lemma valid_4_6 : valid {| n_r := 4; n_phi := 6 |}.
Proof. unfold valid; simpl; repeat split; lia. Qed.

(** The example of the specification: [n_r = 4], [n_phi = 6] gives 19
    vertices and 42 faces. *)
Lemma build_counts_4_6 :
  valid {| n_r := 4; n_phi := 6 |} /\
  Z.of_nat (List.length (vertices (build {| n_r := 4; n_phi := 6 |}))) = 19 /\
  Z.of_nat (List.length (faces (build {| n_r := 4; n_phi := 6 |}))) = 42.
Proof.
  split; [exact valid_4_6|].
  destruct (build_counts {| n_r := 4; n_phi := 6 |} valid_4_6) as (Hv & Hf & _).
  split; [exact Hv | exact Hf].
Defined.

(** ** Angular indices modulo the ring size *)

Lemma mod_wrap (n x : Z) :
  0 < n -> 0 <= x < 2 * n ->
  (x < n /\ x mod n = x) \/ (n <= x /\ x mod n = x - n).
Proof.
  intros Hn Hx; destruct (Z_lt_le_dec x n) as [Hlt|Hge].
  - left; split; [assumption|]; apply Z.mod_small; lia.
  - right; split; [assumption|].
    symmetry; apply (Z.mod_unique x n 1); lia.
Qed.

Lemma even_half (ring : Z) : ring mod 2 = 0 -> ring = 2 * half_turn ring.
Proof.
  intros He; unfold half_turn.
  pose proof (Z.div_mod ring 2 ltac:(lia)); lia.
Qed.

Lemma opposite_half_turn (ring j : Z) :
  Spec.opposite ring j = (j + half_turn ring) mod ring.
Proof. reflexivity. Qed.

(** C5.  For every even [n_phi >= 4], [opposite j = (j + n_phi/2) mod n_phi]
    is an involution on [[0, n_phi)]: it maps the interval to itself and
    applying it twice gives back [j].  It is the index that step 3-b of
    [build] pairs with [j]. *)
Theorem opposite_involutive (n_phi j : Z) :
  4 <= n_phi -> n_phi mod 2 = 0 -> 0 <= j < n_phi ->
  0 <= Spec.opposite n_phi j < n_phi /\
  Spec.opposite n_phi (Spec.opposite n_phi j) = j /\
  forall n_r,
    exists an bn,
      mobius_cell n_r n_phi j =
      [(an, outer_ring_start n_r n_phi + Spec.opposite n_phi j, outer_ring_start n_r n_phi + j);
       (an, bn, outer_ring_start n_r n_phi + Spec.opposite n_phi j)].
Proof.
  intros Hn He Hj.
  pose proof (even_half n_phi He) as Hh.
  rewrite !opposite_half_turn.
  split; [|split].
  - apply Z.mod_pos_bound; lia.
  - set (h := half_turn n_phi) in *.
    destruct (mod_wrap n_phi (j + h)) as [[Hc E]|[Hc E]]; try lia; rewrite E.
    + destruct (mod_wrap n_phi (j + h + h)) as [[Hc' E']|[Hc' E']]; lia.
    + destruct (mod_wrap n_phi (j + h - n_phi + h)) as [[Hc' E']|[Hc' E']]; lia.
  - intros n_r; unfold mobius_cell; cbv zeta; eauto.
Qed.

Lemma opposite_involutive_6_1 :
  0 <= Spec.opposite 6 1 < 6 /\ Spec.opposite 6 (Spec.opposite 6 1) = 1.
Proof.
  destruct (opposite_involutive 6 1) as (Hb & Hi & _);
    [lia | reflexivity | lia |].
  split; [exact Hb | exact Hi].
Defined.

(** ** The three face groups against their description *)

Lemma flat_map_ext_In {A B : Type} (f g : A -> list B) (l : list A) :
  (forall x, In x l -> f x = g x) -> flat_map f l = flat_map g l.
Proof.
  induction l as [|x l IH]; intros H; simpl; [reflexivity|].
  rewrite H by (simpl; auto).
  rewrite IH by (intros; apply H; simpl; auto).
  reflexivity.
Qed.

Lemma ring_vertex_small (ring i j : Z) :
  0 <= j < ring -> Spec.ring_vertex ring i j = first_ring_start + i * ring + j.
Proof. intros Hj; unfold Spec.ring_vertex, first_ring_start; now rewrite Z.mod_small. Qed.

Lemma ring_vertex_next (ring i k : Z) :
  Spec.ring_vertex ring (i + 1) k = first_ring_start + i * ring + ring + k mod ring.
Proof. unfold Spec.ring_vertex, first_ring_start; ring. Qed.

Lemma ring_vertex_outer (n_r ring k : Z) :
  Spec.ring_vertex ring (n_r - 2) k = outer_ring_start n_r ring + k mod ring.
Proof. reflexivity. Qed.

Lemma mobius_cell_spec (n_r ring j : Z) :
  0 <= j < ring ->
  mobius_cell n_r ring j =
  [(Spec.ring_vertex ring (n_r - 2) (j + 1),
    Spec.ring_vertex ring (n_r - 2) (j + ring / 2),
    Spec.ring_vertex ring (n_r - 2) j);
   (Spec.ring_vertex ring (n_r - 2) (j + 1),
    Spec.ring_vertex ring (n_r - 2) (j + ring / 2 + 1),
    Spec.ring_vertex ring (n_r - 2) (j + ring / 2))].
Proof.
  intros Hj; unfold mobius_cell; cbv zeta.
  rewrite !ring_vertex_outer, (Z.mod_small j ring) by lia.
  reflexivity.
Qed.

Lemma mobius_faces_eq (n_r ring : Z) :
  flat_map (mobius_cell n_r ring) (Py.range ring) = Spec.mobius_faces n_r ring.
Proof.
  unfold Spec.mobius_faces; cbv zeta; apply flat_map_ext_In.
  intros j Hj; apply mobius_cell_spec, range_In, Hj.
Qed.

Lemma strip_faces_eq (n_r ring : Z) :
  flat_map (strip_ring ring) (Py.range (n_r - 2)) = Spec.strip_faces n_r ring.
Proof.
  unfold Spec.strip_faces; apply flat_map_ext_In; intros i _.
  unfold strip_ring; apply flat_map_ext_In; intros j Hj.
  apply range_In in Hj; unfold strip_cell; cbv zeta.
  rewrite !ring_vertex_next, (ring_vertex_small ring i j Hj), (Z.mod_small j ring) by lia.
  unfold Spec.ring_vertex, first_ring_start; reflexivity.
Qed.

Lemma fan_faces_eq (ring : Z) :
  map (fan_cell ring) (Py.range ring) = Spec.fan_faces ring.
Proof.
  unfold Spec.fan_faces; apply map_ext_in; intros j Hj.
  apply range_In in Hj; unfold fan_cell, centre_idx; cbv zeta.
  rewrite (ring_vertex_small ring 0 j Hj).
  unfold Spec.ring_vertex, first_ring_start; repeat f_equal; ring.
Qed.

Lemma build_faces_spec (n_r ring : Z) :
  build_faces n_r ring =
  Spec.strip_faces n_r ring ++ Spec.mobius_faces n_r ring ++ Spec.fan_faces ring.
Proof.
  now rewrite build_faces_eq, strip_faces_eq, mobius_faces_eq, fan_faces_eq.
Qed.

(** C4.  The Moebius join glues the outermost ring to itself.  Step 3-b of
    [build] appends, for [j = 0 .. n_phi - 1] in this order, exactly the
    two triangles [(outer[j+1], outer[j+half], outer[j])] and
    [(outer[j+1], outer[j+half+1], outer[j+half])] with [half = n_phi/2]
    and angular indices taken modulo [n_phi]; [outer[j+half]] is the vertex
    of the same ring at the opposite index, and every index of these faces
    lies on the outermost ring. *)
Theorem mobius_join (self : BoysSurfaceGenerator) :
  valid self ->
  let ring := n_phi self in
  let outer := Spec.ring_vertex ring (n_r self - 2) in
  (forall acc, mobius_strip (n_r self) ring acc = acc ++ Spec.mobius_faces (n_r self) ring) /\
  (forall j, 0 <= j < ring ->
     mobius_cell (n_r self) ring j =
     [(outer (j + 1), outer (j + ring / 2), outer j);
      (outer (j + 1), outer (j + ring / 2 + 1), outer (j + ring / 2))] /\
     outer (j + ring / 2) = outer_ring_start (n_r self) ring + Spec.opposite ring j /\
     outer j = outer_ring_start (n_r self) ring + j) /\
  (forall f, In f (Spec.mobius_faces (n_r self) ring) ->
     in_range (outer_ring_start (n_r self) ring)
              (outer_ring_start (n_r self) ring + ring - 1) f) /\
  outer_ring_start (n_r self) ring + ring - 1 = 1 + (n_r self - 1) * ring.
Proof.
  intros (Hr & Hp & He) ring outer; subst ring outer.
  split; [|split; [|split]].
  - intros acc; now rewrite mobius_strip_eq, mobius_faces_eq.
  - intros j Hj; split; [|split].
    + now apply mobius_cell_spec.
    + reflexivity.
    + rewrite ring_vertex_outer, Z.mod_small by lia; reflexivity.
  - intros f Hf; unfold Spec.mobius_faces in Hf; cbv zeta in Hf.
    apply in_flat_map in Hf; destruct Hf as (j & _ & Hf).
    assert (Hb : forall k, outer_ring_start (n_r self) (n_phi self)
                           <= Spec.ring_vertex (n_phi self) (n_r self - 2) k
                           <= outer_ring_start (n_r self) (n_phi self) + n_phi self - 1).
    { intros k; rewrite ring_vertex_outer.
      pose proof (Z.mod_pos_bound k (n_phi self)); lia. }
    simpl in Hf; destruct Hf as [<-|[<-|[]]];
      unfold in_range; simpl;
      repeat (apply Forall_cons; [apply Hb|]); apply Forall_nil.
  - unfold outer_ring_start, first_ring_start; ring.
Qed.

Lemma mobius_join_4_6 :
  valid {| n_r := 4; n_phi := 6 |} /\
  mobius_strip 4 6 [] = Spec.mobius_faces 4 6 /\
  mobius_cell 4 6 5 = [(14, 16, 19); (14, 17, 16)].
Proof.
  split; [exact valid_4_6|].
  destruct (mobius_join {| n_r := 4; n_phi := 6 |} valid_4_6) as (Hs & Hc & _).
  split; [exact (Hs []) | ].
  destruct (Hc 5 ltac:(simpl; lia)) as (Hcell & _); exact Hcell.
Defined.

(** C8.  The other faces are as described.  Step 3-a appends, for every
    ring [i] from the first to the second-to-last and every angular index
    [j], the triangles [(inner[j], outer[j], outer[j+1])] and
    [(inner[j], outer[j+1], inner[j+1])] where [inner] is ring [i] and
    [outer] is ring [i+1]; step 3-c appends the triangles
    [(centre, ring0[j+1], ring0[j])]; indices wrap modulo [n_phi].  The face
    list of [build] is the strips, then the Moebius join, then the fan. *)
Theorem strips_and_fan (n_r ring : Z) :
  (forall acc, radial_strips n_r ring acc = acc ++ Spec.strip_faces n_r ring) /\
  (forall acc, central_fan ring acc = acc ++ Spec.fan_faces ring) /\
  build_faces n_r ring =
    Spec.strip_faces n_r ring ++ Spec.mobius_faces n_r ring ++ Spec.fan_faces ring.
Proof.
  split; [|split].
  - intros acc; now rewrite radial_strips_eq, strip_faces_eq.
  - intros acc; now rewrite central_fan_eq, fan_faces_eq.
  - apply build_faces_spec.
Qed.

(** ** Face indices: range, distinctness, coverage *)

Lemma face_ok_intro (lo hi a b c : Z) :
  lo <= a <= hi -> lo <= b <= hi -> lo <= c <= hi ->
  a <> b -> b <> c -> a <> c ->
  in_range lo hi (a, b, c) /\ pairwise_distinct (a, b, c).
Proof.
  intros; split; [|simpl; auto].
  unfold in_range; simpl.
  repeat (apply Forall_cons; [assumption|]); apply Forall_nil.
Qed.

Lemma strip_cell_ok (n_r ring i j : Z) (f : Face) :
  2 <= n_r -> 2 <= ring -> 0 <= i < n_r - 2 -> 0 <= j < ring ->
  In f (strip_cell ring (first_ring_start + i * ring)
                   (first_ring_start + i * ring + ring) j) ->
  in_range 1 (1 + (n_r - 1) * ring) f /\ pairwise_distinct f.
Proof.
  intros Hr Hp Hi Hj Hf.
  assert (Hlo : 0 <= i * ring) by nia.
  assert (Hhi : i * ring <= (n_r - 3) * ring) by nia.
  assert (Hn : (n_r - 1) * ring = (n_r - 3) * ring + 2 * ring) by ring.
  unfold strip_cell, first_ring_start in Hf; cbv zeta in Hf.
  destruct (mod_wrap ring (j + 1)) as [[Hc E]|[Hc E]]; try lia;
    rewrite E in Hf; cbn [In] in Hf; destruct Hf as [<-|[<-|[]]];
    apply face_ok_intro; lia.
Qed.

Lemma mobius_cell_ok (n_r ring j : Z) (f : Face) :
  2 <= n_r -> 4 <= ring -> ring mod 2 = 0 -> 0 <= j < ring ->
  In f (mobius_cell n_r ring j) ->
  in_range 1 (1 + (n_r - 1) * ring) f /\ pairwise_distinct f.
Proof.
  intros Hr Hp He Hj Hf.
  pose proof (even_half ring He) as Hh.
  assert (Hlo : 0 <= (n_r - 2) * ring) by nia.
  assert (Hn : (n_r - 1) * ring = (n_r - 2) * ring + ring) by ring.
  unfold mobius_cell, outer_ring_start, first_ring_start in Hf; cbv zeta in Hf.
  set (h := half_turn ring) in *.
  destruct (mod_wrap ring (j + 1)) as [[Hc1 E1]|[Hc1 E1]]; try lia;
  destruct (mod_wrap ring (j + h)) as [[Hc2 E2]|[Hc2 E2]]; try lia;
  destruct (mod_wrap ring (j + h + 1)) as [[Hc3 E3]|[Hc3 E3]]; try lia;
    rewrite E1, E2, E3 in Hf; cbn [In] in Hf; destruct Hf as [<-|[<-|[]]];
    apply face_ok_intro; lia.
Qed.

Lemma fan_cell_ok (n_r ring j : Z) :
  2 <= n_r -> 2 <= ring -> 0 <= j < ring ->
  in_range 1 (1 + (n_r - 1) * ring) (fan_cell ring j) /\
  pairwise_distinct (fan_cell ring j).
Proof.
  intros Hr Hp Hj.
  assert (Hn : ring <= (n_r - 1) * ring) by nia.
  unfold fan_cell, centre_idx, first_ring_start; cbv zeta.
  destruct (mod_wrap ring (j + 1)) as [[Hc E]|[Hc E]]; try lia;
    rewrite E; apply face_ok_intro; lia.
Qed.

(** C6.  For every valid configuration, every face of the returned face
    list has its three indices in [[1, 1 + (n_r-1)*n_phi]] (1-based vertex
    indices) and pairwise distinct. *)
Theorem faces_well_formed (self : BoysSurfaceGenerator) (f : Face) :
  valid self ->
  In f (faces (build self)) ->
  in_range 1 (1 + (n_r self - 1) * n_phi self) f /\ pairwise_distinct f.
Proof.
  intros (Hr & Hp & He) Hf; unfold build in Hf; cbv zeta in Hf; simpl faces in Hf.
  rewrite build_faces_eq, !in_app_iff in Hf.
  destruct Hf as [Hf|[Hf|Hf]].
  - apply in_flat_map in Hf; destruct Hf as (i & Hi & Hf).
    unfold strip_ring in Hf; apply in_flat_map in Hf; destruct Hf as (j & Hj & Hf).
    apply range_In in Hi, Hj.
    apply (strip_cell_ok (n_r self) (n_phi self) i j); auto; lia.
  - apply in_flat_map in Hf; destruct Hf as (j & Hj & Hf).
    apply range_In in Hj.
    apply (mobius_cell_ok (n_r self) (n_phi self) j); auto.
  - apply in_map_iff in Hf; destruct Hf as (j & <- & Hj).
    apply range_In in Hj.
    apply fan_cell_ok; lia.
Qed.

Lemma faces_well_formed_2_4 :
  valid {| n_r := 2; n_phi := 4 |} /\
  In (3, 4, 2) (faces (build {| n_r := 2; n_phi := 4 |})) /\
  in_range 1 5 (3, 4, 2) /\ pairwise_distinct (3, 4, 2).
Proof.
  assert (Hv : valid {| n_r := 2; n_phi := 4 |})
    by (unfold valid; simpl; repeat split; lia).
  assert (Hin : In (3, 4, 2) (faces (build {| n_r := 2; n_phi := 4 |})))
    by (vm_compute; auto).
  split; [exact Hv|]; split; [exact Hin|].
  exact (faces_well_formed {| n_r := 2; n_phi := 4 |} (3, 4, 2) Hv Hin).
Defined.

(** C10.  For every valid configuration, every vertex index from [1] to
    [1 + (n_r-1)*n_phi] occurs in at least one face of the returned face
    list; for [n_r = 2] step 3-a emits nothing and the single ring is
    covered by the Moebius join (and by the fan). *)
Theorem no_orphan_vertices (self : BoysSurfaceGenerator) (v : Z) :
  valid self ->
  1 <= v <= 1 + (n_r self - 1) * n_phi self ->
  referenced v (faces (build self)).
Proof.
  intros (Hr & Hp & He) Hv; unfold build; cbv zeta; simpl faces.
  set (ring := n_phi self) in *; set (n := n_r self) in *.
  rewrite build_faces_eq; unfold referenced.
  destruct (Z.eq_dec v 1) as [->|Hne].
  - exists (fan_cell ring 0); split.
    + rewrite !in_app_iff; right; right.
      apply in_map, range_In; lia.
    + simpl; auto.
  - pose proof (Z.div_mod (v - 2) ring ltac:(lia)) as Hdm.
    pose proof (Z.mod_pos_bound (v - 2) ring ltac:(lia)) as Hm.
    set (i := (v - 2) / ring) in *; set (j := (v - 2) mod ring) in *.
    assert (Hi0 : 0 <= i) by (apply Z.div_pos; lia).
    assert (Hi1 : i < n - 1) by nia.
    destruct (Z_lt_le_dec i (n - 2)) as [Hlt|Hge].
    + exists (first_ring_start + i * ring + j,
              first_ring_start + i * ring + ring + j,
              first_ring_start + i * ring + ring + (j + 1) mod ring); split.
      * rewrite !in_app_iff; left.
        apply in_flat_map; exists i; split; [apply range_In; lia|].
        unfold strip_ring; apply in_flat_map; exists j; split; [apply range_In; lia|].
        unfold strip_cell; cbv zeta; cbn [In]; auto.
      * cbn [face_indices In]; left; unfold first_ring_start; lia.
    + assert (Hi : i = n - 2) by lia.
      exists (outer_ring_start n ring + (j + 1) mod ring,
              outer_ring_start n ring + (j + half_turn ring) mod ring,
              outer_ring_start n ring + j); split.
      * rewrite !in_app_iff; right; left.
        apply in_flat_map; exists j; split; [apply range_In; lia|].
        unfold mobius_cell; cbv zeta; cbn [In]; auto.
      * cbn [face_indices In]; right; right; left.
        unfold outer_ring_start, first_ring_start; rewrite <- Hi; lia.
Qed.

Lemma no_orphan_vertices_2_4 :
  valid {| n_r := 2; n_phi := 4 |} /\
  radial_strips 2 4 [] = [] /\
  referenced 5 (faces (build {| n_r := 2; n_phi := 4 |})).
Proof.
  split; [unfold valid; simpl; repeat split; lia|].
  split; [reflexivity|].
  apply (no_orphan_vertices {| n_r := 2; n_phi := 4 |} 5).
  - unfold valid; simpl; repeat split; lia.
  - simpl; lia.
Defined.

(** ** The constructor *)

Lemma flt_true (x y : Q) : Py.flt x y = true <-> (x < y)%Q.
Proof.
  unfold Py.flt; rewrite negb_true_iff, <- not_true_iff_false, Qle_bool_iff.
  split; [apply Qnot_le_lt | apply Qlt_not_le].
Qed.

Lemma flt_false (x y : Q) : Py.flt x y = false <-> (y <= x)%Q.
Proof.
  rewrite <- not_true_iff_false, flt_true; split.
  - apply Qnot_lt_le.
  - intros H H'; exact (Qlt_not_le _ _ H' H).
Qed.

Lemma truthy_true (z : Z) : Py.truthy z = true <-> z <> 0.
Proof. unfold Py.truthy; rewrite negb_true_iff; apply Z.eqb_neq. Qed.

Lemma truthy_false (z : Z) : Py.truthy z = false <-> z = 0.
Proof. unfold Py.truthy; rewrite negb_false_iff; apply Z.eqb_eq. Qed.

Lemma round_floor (x : Q) : Qfloor x <= Py.round x <= Qfloor x + 1.
Proof.
  unfold Py.round; cbv zeta.
  destruct (_ ?= _)%Q; [destruct (Z.even _)| |]; lia.
Qed.

Lemma round_ge_4 (x : Q) : (4 <= x)%Q -> 4 <= Py.round x.
Proof.
  intros Hx; pose proof (round_floor x) as Hf.
  pose proof (Qfloor_resp_le 4 x Hx) as Hm.
  change (Qfloor 4) with 4 in Hm; lia.
Qed.

Lemma even_mod2 (z : Z) : Z.even z = true <-> z mod 2 = 0.
Proof.
  rewrite Z.even_spec; split.
  - intros [k ->]; rewrite Z.mul_comm; apply Z_mod_mult.
  - intros H; exists (z / 2); pose proof (Z.div_mod z 2 ltac:(lia)); lia.
Qed.

Lemma flt_int_finite (x : Py.float) (k : Z) :
  Py.is_finite x = true -> Py.flt_int x k = Py.flt (Py.F2Q x) (inject_Z k).
Proof. destruct x; simpl; intros H; try discriminate; reflexivity. Qed.

Lemma round_float_finite (x : Py.float) :
  Py.is_finite x = true -> Py.round_float x = inr (Py.round (Py.F2Q x)).
Proof. destruct x; simpl; intros H; try discriminate; reflexivity. Qed.

Lemma float_of_int_error (z : Z) (e : exn) :
  Py.float_of_int z = inl e -> e = OverflowError Py.msg_int_too_large.
Proof.
  unfold Py.float_of_int; destruct (binary_normalize _ _ _ _ _); congruence.
Qed.

Lemma product_error (resolution : Z) (ratio : Py.float) (e : exn) :
  product resolution ratio = inl e -> e = OverflowError Py.msg_int_too_large.
Proof.
  unfold product; destruct (Py.float_of_int resolution) eqn:E; [|discriminate].
  intros [= <-]; exact (float_of_int_error _ _ E).
Qed.

Lemma init_guard (resolution : Z) (ratio : Py.float) :
  init resolution ratio =
  if resolution <? 2 then inl (ValueError msg_resolution)
  else match product resolution ratio with
       | inl e => inl e
       | inr p => guard resolution p
       end.
Proof.
  unfold init; destruct (resolution <? 2); [reflexivity|].
  destruct (product resolution ratio) as [e|p]; [reflexivity|].
  destruct p as [s|[|]| |s m e]; try reflexivity; unfold guard;
    cbn [Py.flt_int Py.round_float];
    change (inject_Z 4) with 4%Q;
    destruct (Py.flt _ 4); reflexivity.
Qed.

Lemma guard_finite (resolution : Z) (p : Py.float) :
  Py.is_finite p = true ->
  ((Py.F2Q p < 4)%Q \/ Py.round (Py.F2Q p) mod 2 <> 0) /\
  guard resolution p = inl (ValueError msg_n_phi)
  \/
  (4 <= Py.F2Q p)%Q /\ Py.round (Py.F2Q p) mod 2 = 0 /\
  guard resolution p = inr {| n_r := resolution; n_phi := Py.round (Py.F2Q p) |}.
Proof.
  intros Hf.
  assert (Hg : guard resolution p =
               if Py.flt (Py.F2Q p) 4 || Py.truthy (Py.round (Py.F2Q p) mod 2)
               then inl (ValueError msg_n_phi)
               else inr {| n_r := resolution; n_phi := Py.round (Py.F2Q p) |})
    by (destruct p; try discriminate; reflexivity).
  rewrite Hg.
  destruct (Py.flt (Py.F2Q p) 4) eqn:Hlt; cbn [orb].
  - left; split; [left; now apply flt_true|reflexivity].
  - destruct (Py.truthy _) eqn:Ht.
    + left; split; [right; now apply truthy_true|reflexivity].
    + right; split; [now apply flt_false|]; split; [now apply truthy_false|reflexivity].
Qed.

(** The outcomes of construction, one per path through [__init__]. *)
Lemma init_cases (resolution : Z) (ratio : Py.float) :
  (resolution < 2 /\ init resolution ratio = inl (ValueError msg_resolution)) \/
  (2 <= resolution /\
   product resolution ratio = inl (OverflowError Py.msg_int_too_large) /\
   init resolution ratio = inl (OverflowError Py.msg_int_too_large)) \/
  (2 <= resolution /\
   exists p, product resolution ratio = inr p /\
     ((p = S754_nan /\ init resolution ratio = inl (ValueError Py.msg_round_nan)) \/
      (p = S754_infinity false /\
       init resolution ratio = inl (OverflowError Py.msg_round_inf)) \/
      (p = S754_infinity true /\ init resolution ratio = inl (ValueError msg_n_phi)) \/
      (Py.is_finite p = true /\
       ((Py.F2Q p < 4)%Q \/ Py.round (Py.F2Q p) mod 2 <> 0) /\
       init resolution ratio = inl (ValueError msg_n_phi)) \/
      (Py.is_finite p = true /\ (4 <= Py.F2Q p)%Q /\ Py.round (Py.F2Q p) mod 2 = 0 /\
       init resolution ratio
       = inr {| n_r := resolution; n_phi := Py.round (Py.F2Q p) |}))).
Proof.
  rewrite init_guard.
  destruct (Z.ltb_spec resolution 2) as [Hlt|Hge]; [left; auto|right].
  destruct (product resolution ratio) as [e|p] eqn:Ep.
  - left; rewrite (product_error _ _ _ Ep) in *; auto.
  - right; split; [assumption|]; exists p; split; [reflexivity|].
    destruct (Py.is_finite p) eqn:Hf.
    + destruct (guard_finite resolution p Hf) as [(Hc & E)|(H4 & Hm & E)]; rewrite E.
      * do 3 right; left; auto.
      * do 4 right; auto.
    + destruct p as [s|[|]| |s m e]; try discriminate; cbn [guard]; auto.
Qed.

Lemma init_outcome (resolution : Z) (ratio : Py.float) :
  (raises (init resolution ratio) = true <->
   resolution < 2 \/
   product resolution ratio = inl (OverflowError Py.msg_int_too_large) \/
   exists p, product resolution ratio = inr p /\
             (Py.is_finite p = false \/ (Py.F2Q p < 4)%Q \/
              Py.round (Py.F2Q p) mod 2 <> 0)) /\
  (Spec.invalid_configuration resolution ratio = true ->
   raises (init resolution ratio) = true) /\
  (forall e, init resolution ratio = inl e ->
             construct_and_build resolution ratio = inl e) /\
  (forall self, init resolution ratio = inr self ->
                n_r self = resolution /\
                (exists p, product resolution ratio = inr p /\
                           Py.is_finite p = true /\
                           n_phi self = Py.round (Py.F2Q p)) /\
                valid self /\
                construct_and_build resolution ratio = inr (build self)).
Proof.
  assert (Hb : forall e, init resolution ratio = inl e ->
                         construct_and_build resolution ratio = inl e)
    by (intros e E; unfold construct_and_build; now rewrite E).
  destruct (init_cases resolution ratio)
    as [(H2 & E)|[(H2 & Ep & E)|(H2 & p & Ep & Hp)]].
  - rewrite E; cbn [raises]; repeat split; auto; try discriminate.
    rewrite <- E; exact Hb.
  - rewrite E; cbn [raises]; repeat split; auto; try discriminate.
    rewrite <- E; exact Hb.
  - destruct Hp as [(-> & E)|[(-> & E)|[(-> & E)|[(Hf & Hc & E)|(Hf & H4 & Hm & E)]]]];
      rewrite E; cbn [raises].
    + repeat split; auto; try discriminate; [|rewrite <- E; exact Hb].
      intros _; right; right; eexists; split; [exact Ep|left; reflexivity].
    + repeat split; auto; try discriminate; [|rewrite <- E; exact Hb].
      intros _; right; right; eexists; split; [exact Ep|left; reflexivity].
    + repeat split; auto; try discriminate; [|rewrite <- E; exact Hb].
      intros _; right; right; eexists; split; [exact Ep|left; reflexivity].
    + repeat split; auto; try discriminate; [|rewrite <- E; exact Hb].
      intros _; right; right; eexists; split; [exact Ep|right; exact Hc].
    + pose proof (round_ge_4 _ H4) as Hr.
      split; [|split; [|split]].
      * split; [discriminate|].
        intros [H|[H|(p' & Ep' & H)]]; [lia|congruence|].
        rewrite Ep in Ep'; injection Ep' as <-.
        destruct H as [H|[H|H]]; [congruence| |contradiction].
        exfalso; exact (Qlt_not_le _ _ H H4).
      * unfold Spec.invalid_configuration; rewrite Ep, Hf; cbv zeta.
        apply even_mod2 in Hm; rewrite Hm.
        destruct (Z.ltb_spec resolution 2); [lia|].
        destruct (Z.leb_spec 4 (Py.round (Py.F2Q p))); [discriminate|lia].
      * rewrite <- E; exact Hb.
      * intros self [= <-]; cbn [n_r n_phi]; split; [reflexivity|].
        split; [exists p; auto|]; split.
        -- unfold valid; cbn [n_r n_phi]; auto.
        -- unfold construct_and_build; now rewrite E.
Qed.

Lemma init_error_kinds (resolution : Z) (ratio : Py.float) (e : exn) :
  init resolution ratio = inl e -> In e init_errors.
Proof.
  intros He; unfold init_errors; cbn [In].
  destruct (init_cases resolution ratio)
    as [(H2 & E)|[(H2 & Ep & E)|(H2 & p & Ep & Hp)]].
  - rewrite E in He; injection He as <-; auto.
  - rewrite E in He; injection He as <-; auto.
  - destruct Hp as [(-> & E)|[(-> & E)|[(-> & E)|[(Hf & Hc & E)|(Hf & H4 & Hm & E)]]]];
      rewrite E in He; try discriminate; injection He as <-; auto 6.
Qed.

(** C1, as the code has it.  Construction raises exactly when
    [resolution < 2], or [resolution] is too large to be converted to a
    float, or the binary64 product [ratio * resolution] is not finite, or
    is below 4, or rounds (ties to even) to an odd integer.  Whenever the
    described condition ([n_r < 2], or [n_phi = round(ratio * resolution)]
    not an even integer [>= 4]) holds, construction raises.  A raised
    error is one of five fixed errors, of kind [ValueError] or
    [OverflowError]; it means that no generator and hence no mesh is
    produced.  An accepted input stores [n_r = resolution >= 2] and [n_phi]
    the rounded binary64 product, even and [>= 4]. *)
Theorem init_raises_iff (resolution : Z) (ratio : Py.float) :
  (raises (init resolution ratio) = true <->
   resolution < 2 \/
   product resolution ratio = inl (OverflowError Py.msg_int_too_large) \/
   exists p, product resolution ratio = inr p /\
             (Py.is_finite p = false \/ (Py.F2Q p < 4)%Q \/
              Py.round (Py.F2Q p) mod 2 <> 0)) /\
  (Spec.invalid_configuration resolution ratio = true ->
   raises (init resolution ratio) = true) /\
  (forall e, init resolution ratio = inl e ->
             construct_and_build resolution ratio = inl e) /\
  (forall self, init resolution ratio = inr self ->
                n_r self = resolution /\
                (exists p, product resolution ratio = inr p /\
                           Py.is_finite p = true /\
                           n_phi self = Py.round (Py.F2Q p)) /\
                valid self /\
                construct_and_build resolution ratio = inr (build self)) /\
  (forall e, init resolution ratio = inl e -> In e init_errors).
Proof.
  split; [|split; [|split; [|split]]]; try apply init_outcome.
  apply init_error_kinds.
Qed.

(** Float literals used below, by mantissa and exponent.
    [1.0], [2.0], [0.5], [1.875], [0.3 = 0x1.3333333333333p-2],
    [0.45 = 0x1.ccccccccccccdp-2], [1.3333333333333333 = 0x1.5555555555555p+0]. *)
Example float_literals :
  Py.b64 1 0 = S754_finite false 4503599627370496 (-52) /\
  Py.b64 2 0 = S754_finite false 4503599627370496 (-51) /\
  Py.b64 1 (-1) = S754_finite false 4503599627370496 (-53) /\
  Py.b64 15 (-3) = S754_finite false 8444249301319680 (-52) /\
  Py.b64 5404319552844595 (-54) = S754_finite false 5404319552844595 (-54) /\
  Py.b64 8106479329266893 (-54) = S754_finite false 8106479329266893 (-54) /\
  Py.b64 6004799503160661 (-52) = S754_finite false 6004799503160661 (-52).
Proof. repeat split; vm_compute; reflexivity. Qed.

(** The scenarios the specification lists. *)
Example init_resolution_1 : init 1 (Py.b64 2 0) = inl (ValueError msg_resolution).
Proof. vm_compute; reflexivity. Qed.

Example init_10_ratio_1 : init 10 (Py.b64 1 0) = inr {| n_r := 10; n_phi := 10 |}.
Proof. vm_compute; reflexivity. Qed.

Example init_10_ratio_0_3 :
  product 10 (Py.b64 5404319552844595 (-54))
  = inr (S754_finite false 6755399441055744 (-51)) /\
  init 10 (Py.b64 5404319552844595 (-54)) = inl (ValueError msg_n_phi).
Proof. split; vm_compute; reflexivity. Qed.

Example init_default_64 : init 64 (Py.b64 2 0) = inr {| n_r := 64; n_phi := 128 |}.
Proof. vm_compute; reflexivity. Qed.

(** Products that binary64 rounds: [3 * 1.3333333333333333] is [4.0] and
    [10 * 0.45] is [4.5], both accepted with [n_phi = 4]; [2^53 + 1] is
    converted to [2^53], so ratio [2.0] stores [n_phi = 2^54]. *)
Example init_rounded_products :
  init 3 (Py.b64 6004799503160661 (-52)) = inr {| n_r := 3; n_phi := 4 |} /\
  init 10 (Py.b64 8106479329266893 (-54)) = inr {| n_r := 10; n_phi := 4 |} /\
  init (2 ^ 53 + 1) (Py.b64 2 0) = inr {| n_r := 2 ^ 53 + 1; n_phi := 2 ^ 54 |}.
Proof. repeat split; vm_compute; reflexivity. Qed.

(** The interpreter's own failures on lines 91 and 92. *)
Example init_interpreter_errors :
  init (10 ^ 400) (Py.b64 2 0) = inl (OverflowError Py.msg_int_too_large) /\
  init 10 Py.nan = inl (ValueError Py.msg_round_nan) /\
  init 10 Py.inf = inl (OverflowError Py.msg_round_inf) /\
  init 10 (S754_infinity true) = inl (ValueError msg_n_phi).
Proof. repeat split; vm_compute; reflexivity. Qed.

(** C1 as stated fails: [resolution = 2], [ratio = 1.875] give the product
    [3.75], which rounds to the even integer [4 >= 4], so the described
    condition is false, yet the constructor raises because [3.75 < 4]. *)
Lemma init_rejects_product_3_75 :
  product 2 (Py.b64 15 (-3)) = inr (S754_finite false 8444249301319680 (-51)) /\
  (Py.F2Q (S754_finite false 8444249301319680 (-51)) == 15 # 4)%Q /\
  Py.round (Py.F2Q (S754_finite false 8444249301319680 (-51))) = 4 /\
  Spec.invalid_configuration 2 (Py.b64 15 (-3)) = false /\
  init 2 (Py.b64 15 (-3)) = inl (ValueError msg_n_phi) /\
  ~ (raises (init 2 (Py.b64 15 (-3))) = true <->
     Spec.invalid_configuration 2 (Py.b64 15 (-3)) = true).
Proof.
  assert (Hi : init 2 (Py.b64 15 (-3)) = inl (ValueError msg_n_phi))
    by (vm_compute; reflexivity).
  assert (Hs : Spec.invalid_configuration 2 (Py.b64 15 (-3)) = false)
    by (vm_compute; reflexivity).
  repeat split; try (vm_compute; reflexivity); try assumption.
  rewrite Hi, Hs; cbn [raises]; intros [H _]; specialize (H eq_refl); discriminate H.
Qed.

(** ** Error messages *)

Example decimal_3 : decimal 3 = "3"%string /\ decimal 128 = "128"%string.
Proof. split; reflexivity. Qed.

Example contains_4 :
  contains "4" msg_n_phi = true /\ contains "3" msg_n_phi = false.
Proof. split; reflexivity. Qed.




(** ** The evaluator at the centre *)

(** Decimal literals such as [0.5] are quotients of integers. *)
Ltac decimals := unfold Q2R; cbn [Qnum Qden].

Section Centre.

#[local] Open Scope R_scope.

Lemma Cpow_C0 (n : nat) : Cpow C0 (S n) = C0.
Proof.
  cbn [Cpow]; unfold Cmul, C0, RtoC; cbn [fst snd]; f_equal; ring.
Qed.

Lemma denom_C0 : denom C0 = (-1, 0).
Proof.
  unfold denom, z6; rewrite !Cpow_C0.
  unfold Csub, Cadd, Cmul, C0, C1, RtoC; cbn [fst snd]; f_equal; ring.
Qed.

Lemma g1_C0 : g1 C0 = 0.
Proof.
  unfold g1; rewrite denom_C0, Cpow_C0.
  unfold Im, Cdiv, Cnorm2, Cmul, Csub, C0, C1, RtoC; cbn [fst snd]; field.
Qed.

Lemma g2_C0 : g2 C0 = 0.
Proof.
  unfold g2; rewrite denom_C0, Cpow_C0.
  unfold Re, Cdiv, Cnorm2, Cmul, Cadd, C0, C1, RtoC; cbn [fst snd]; field.
Qed.

Lemma g3_C0 : g3 C0 = -0.5.
Proof.
  unfold g3, z6; rewrite denom_C0, Cpow_C0.
  unfold Im, Cdiv, Cnorm2, Cadd, C0, C1, RtoC; cbn [fst snd]; decimals; field.
Qed.

Lemma g_C0 : g C0 = 0.25.
Proof. unfold g; rewrite g1_C0, g2_C0, g3_C0; decimals; field. Qed.

Lemma xyz_C0 : _xyz C0 = (0, 0, -2).
Proof.
  unfold _xyz; rewrite g1_C0, g2_C0, g3_C0, g_C0.
  repeat f_equal; decimals; field.
Qed.

End Centre.

(** ** The parameter grid *)

Section GridSamples.

#[local] Open Scope R_scope.

Lemma tl_range_In (n m : Z) : In m (tl (Py.range n)) <-> (1 <= m < n)%Z.
Proof.
  unfold Py.range; destruct (Z.to_nat n) as [|n'] eqn:En; simpl.
  - split; [tauto|lia].
  - rewrite in_map_iff; split.
    + intros (k & <- & Hk); apply in_seq in Hk; lia.
    + intros Hm; exists (Z.to_nat m); split; [lia|apply in_seq; lia].
Qed.

Lemma tl_map {A B : Type} (f : A -> B) (l : list A) : tl (map f l) = map f (tl l).
Proof. now destruct l. Qed.

Lemma polar_sample (r phi : R) :
  Cmul (RtoC r) (Cexp (Cmul Ci (RtoC phi))) = (r * cos phi, r * sin phi).
Proof.
  unfold Cmul, Cexp, Ci, RtoC; cbn [fst snd].
  replace (0 * phi - 1 * 0) with 0 by ring.
  replace (0 * 0 + 1 * phi) with phi by ring.
  rewrite exp_0; f_equal; ring.
Qed.

Lemma radius_eq (m n : R) : 0 + m * ((1 - 0) / n) = m / n.
Proof. unfold Rdiv; ring. Qed.

Lemma angle_eq (k n : R) : 0 + k * ((2 * PI - 0) / n) = 2 * PI * k / n.
Proof. unfold Rdiv; ring. Qed.

(** The points evaluated by [build] are the grid samples. *)
Lemma w_grid_In (n_r ring : Z) (w : C) :
  In w (Grid.w_grid n_r ring) <->
  exists m k, (1 <= m < n_r)%Z /\ (0 <= k < ring)%Z /\ w = Spec.grid_sample n_r ring m k.
Proof.
  unfold Grid.w_grid, Grid.linspace; cbv zeta.
  rewrite in_flat_map, tl_map; split.
  - intros (r & Hr & Hw).
    apply in_map_iff in Hr; destruct Hr as (m & <- & Hm).
    apply in_map_iff in Hw; destruct Hw as (phi & <- & Hphi).
    apply in_map_iff in Hphi; destruct Hphi as (k & <- & Hk).
    apply tl_range_In in Hm; apply range_In in Hk.
    exists m, k; repeat split; try lia.
    now rewrite polar_sample, radius_eq, angle_eq.
  - intros (m & k & Hm & Hk & ->).
    exists (0 + IZR m * ((1 - 0) / IZR (n_r - 1))); split.
    + apply in_map_iff; exists m; split; [reflexivity|apply tl_range_In; lia].
    + apply in_map_iff; exists (0 + IZR k * ((2 * PI - 0) / IZR ring)); split.
      * now rewrite polar_sample, radius_eq, angle_eq.
      * apply in_map_iff; exists k; split; [reflexivity|apply range_In; lia].
Qed.

Lemma grid_sample_norm2 (n_r ring m k : Z) :
  Cnorm2 (Spec.grid_sample n_r ring m k) = (IZR m / IZR (n_r - 1)) ^ 2.
Proof.
  unfold Spec.grid_sample, Cnorm2; cbv zeta; cbn [fst snd].
  set (phi := 2 * PI * IZR k / IZR ring).
  pose proof (sin2_cos2 phi) as Hsc; unfold Rsqr in Hsc.
  set (r := IZR m / IZR (n_r - 1)).
  transitivity (r * r * (sin phi * sin phi + cos phi * cos phi)); [ring|].
  rewrite Hsc; ring.
Qed.

Lemma grid_sample_nonzero (n_r ring m k : Z) :
  (1 <= m < n_r)%Z -> Spec.grid_sample n_r ring m k <> C0.
Proof.
  intros Hm E.
  pose proof (grid_sample_norm2 n_r ring m k) as Hn; rewrite E in Hn.
  unfold Cnorm2, C0, RtoC in Hn; cbn [fst snd] in Hn.
  assert (Hr : 0 < IZR m / IZR (n_r - 1)).
  { apply Rdiv_lt_0_compat; apply IZR_lt; lia. }
  assert (0 < (IZR m / IZR (n_r - 1)) ^ 2) by (apply pow_lt; assumption).
  lra.
Qed.

End GridSamples.

(** C7.  At [w = 0] the evaluator has denominator [-1], [g1 = g2 = 0],
    [g3 = -0.5] and [g = 0.25], and returns exactly the point
    [(0, 0, -2)].  [build] puts this point first in the vertex list
    (1-based index 1), and no grid sample is [0]. *)
Theorem centre_vertex :
  denom C0 = (-1, 0)%R /\
  g1 C0 = 0%R /\ g2 C0 = 0%R /\ g3 C0 = (-0.5)%R /\ g C0 = 0.25%R /\
  _xyz C0 = (0, 0, -2)%R /\
  (forall self, exists grid_vertices,
      vertices (build self) = (0, 0, -2)%R :: grid_vertices /\
      grid_vertices = map _xyz (Grid.w_grid (n_r self) (n_phi self))) /\
  (forall n_r ring w, In w (Grid.w_grid n_r ring) -> w <> C0).
Proof.
  split; [apply denom_C0|].
  split; [apply g1_C0|].
  split; [apply g2_C0|].
  split; [apply g3_C0|].
  split; [apply g_C0|].
  split; [apply xyz_C0|].
  split.
  - intros self; eexists; split; [|reflexivity].
    unfold build, Grid.build_vertices; cbv zeta; simpl vertices.
    now rewrite xyz_C0.
  - intros n_r ring w Hw; apply w_grid_In in Hw.
    destruct Hw as (m & k & Hm & _ & ->); now apply grid_sample_nonzero.
Qed.

(** ** Zeros of the denominator *)

Section Denominator.

#[local] Open Scope R_scope.

Lemma sqrt5_sqr : sqrt5 * sqrt5 = 5.
Proof. unfold sqrt5; apply sqrt_sqrt; lra. Qed.

Lemma sqrt5_bounds : 2 < sqrt5 < 3.
Proof.
  pose proof sqrt5_sqr as H.
  assert (0 <= sqrt5) by apply sqrt_pos.
  split; nra.
Qed.

Lemma Cnorm2_mul (z w : C) : Cnorm2 (Cmul z w) = Cnorm2 z * Cnorm2 w.
Proof. unfold Cnorm2, Cmul; cbn [fst snd]; ring. Qed.

Lemma Cnorm2_pow3 (w : C) : Cnorm2 (Cpow w 3) = Cnorm2 w ^ 3.
Proof.
  cbn [Cpow]; rewrite !Cnorm2_mul.
  unfold Cnorm2 at 4, C1, RtoC; cbn [fst snd]; ring.
Qed.

(** The denominator is a quadratic in [w ** 3]. *)
Lemma denom_cube (w : C) :
  denom w =
  (fst (Cpow w 3) * fst (Cpow w 3) - snd (Cpow w 3) * snd (Cpow w 3)
     + sqrt5 * fst (Cpow w 3) - 1,
   2 * fst (Cpow w 3) * snd (Cpow w 3) + sqrt5 * snd (Cpow w 3)).
Proof.
  destruct w as [x y].
  unfold denom, z6, Csub, Cadd, C1, RtoC; cbn [Cpow].
  unfold Cmul, C1, RtoC; cbn [fst snd]; f_equal; ring.
Qed.

(** Where the denominator vanishes, [|w|^6] is one of two constants. *)
Lemma denom_zero_norm (w : C) :
  denom w = C0 ->
  Cnorm2 w ^ 3 = ((3 - sqrt5) / 2) ^ 2 \/ Cnorm2 w ^ 3 = ((3 + sqrt5) / 2) ^ 2.
Proof.
  intros H; rewrite denom_cube in H; rewrite <- Cnorm2_pow3.
  destruct (Cpow w 3) as [a b]; cbn [fst snd] in H.
  unfold C0, RtoC in H; injection H as Hre Him.
  unfold Cnorm2; cbn [fst snd].
  pose proof sqrt5_sqr as H5; pose proof sqrt5_bounds as Hb.
  assert (Hb0 : b * (2 * a + sqrt5) = 0) by lra.
  apply Rmult_integral in Hb0; destruct Hb0 as [Hb0|Ha].
  - subst b.
    assert (Hf : (a - (3 - sqrt5) / 2) * (a + (3 + sqrt5) / 2) = 0) by nra.
    apply Rmult_integral in Hf; destruct Hf as [Hf|Hf].
    + left; replace a with ((3 - sqrt5) / 2) by lra; ring.
    + right; replace a with (- ((3 + sqrt5) / 2)) by lra; ring.
  - exfalso.
    assert (Ha' : a = - sqrt5 / 2) by lra.
    subst a; nra.
Qed.

Lemma pole_cube : fst pole ^ 3 = (3 - sqrt5) / 2.
Proof.
  unfold pole; cbn [fst].
  pose proof sqrt5_bounds as Hb.
  assert (Ht : 0 < (3 - sqrt5) / 2) by lra.
  rewrite <- (Rpower_pow 3) by apply exp_pos.
  rewrite Rpower_mult.
  replace (/ 3 * INR 3) with 1 by (simpl; field).
  now apply Rpower_1.
Qed.

Lemma pole_in_disk : Cnorm2 pole <= 1.
Proof.
  pose proof pole_cube as Hc; pose proof sqrt5_bounds as Hb.
  unfold Cnorm2; unfold pole in *; cbn [fst snd] in *.
  set (x := Rpower ((3 - sqrt5) / 2) (/ 3)) in *.
  assert (Hx : 0 < x) by apply exp_pos.
  assert (x <= 1); [|nra].
  apply Rnot_lt_le; intros Hgt.
  assert (1 < x ^ 3) by nra.
  lra.
Qed.

Lemma pole_denom : denom pole = C0.
Proof.
  pose proof pole_cube as Hc; pose proof sqrt5_sqr as H5.
  unfold pole in *; cbn [fst] in Hc.
  set (x := Rpower ((3 - sqrt5) / 2) (/ 3)) in *.
  unfold denom, z6, Csub, Cadd, C1, C0, RtoC; cbn [Cpow].
  unfold Cmul, C1, RtoC; cbn [fst snd]; f_equal; [|ring].
  transitivity ((x ^ 3) ^ 2 + sqrt5 * x ^ 3 - 1); [ring|].
  rewrite Hc; nra.
Qed.

End Denominator.

(** ** The denominator at the evaluated points *)

(** A square that is five times a square is zero. *)
Lemma five_divides_square (p q : Z) : p * p = 5 * (q * q) -> p mod 5 = 0.
Proof.
  intros H.
  pose proof (Z.div_mod p 5 ltac:(lia)) as Hd.
  pose proof (Z.mod_pos_bound p 5 ltac:(lia)) as Hb.
  set (k := p / 5) in *; set (r := p mod 5) in *.
  assert (Hp : p * p = 5 * (5 * (k * k) + 2 * (k * r)) + r * r) by (rewrite Hd at 1 2; ring).
  assert (Hr : r = 0 \/ r = 1 \/ r = 2 \/ r = 3 \/ r = 4) by lia.
  destruct Hr as [Hr|[Hr|[Hr|[Hr|Hr]]]]; rewrite Hr in *; lia.
Qed.

Lemma sqrt5_descent (n : nat) :
  forall p q : Z, (Z.abs_nat q < n)%nat -> p * p = 5 * (q * q) -> q = 0.
Proof.
  induction n as [|n IH]; intros p q Hn H; [lia|].
  pose proof (five_divides_square p q H) as Hp.
  pose proof (Z.div_mod p 5 ltac:(lia)) as Hdp; rewrite Hp, Z.add_0_r in Hdp.
  set (p' := p / 5) in *.
  assert (H' : q * q = 5 * (p' * p')) by (rewrite Hdp in H; lia).
  pose proof (five_divides_square q p' H') as Hq.
  pose proof (Z.div_mod q 5 ltac:(lia)) as Hdq; rewrite Hq, Z.add_0_r in Hdq.
  set (q' := q / 5) in *.
  assert (H'' : p' * p' = 5 * (q' * q')) by (rewrite Hdq in H'; lia).
  destruct (Z.eq_dec q 0) as [Hz|Hnz]; [assumption|].
  assert (Hq' : q' = 0) by (apply (IH p' q'); [lia|assumption]).
  lia.
Qed.

Lemma sqrt5_irrational (p q : Z) : p * p = 5 * (q * q) -> q = 0.
Proof. apply (sqrt5_descent (S (Z.abs_nat q))); lia. Qed.

Section EvaluatedPoints.

#[local] Open Scope R_scope.

(** No rational radius in [(0, 1]] has [|w|^6] equal to one of the two
    constants of [denom_zero_norm]. *)
Lemma rational_radius_regular (m n : Z) :
  (1 <= m <= n)%Z ->
  ((IZR m / IZR n) ^ 2) ^ 3 <> ((3 - sqrt5) / 2) ^ 2 /\
  ((IZR m / IZR n) ^ 2) ^ 3 <> ((3 + sqrt5) / 2) ^ 2.
Proof.
  intros Hm.
  pose proof sqrt5_sqr as H5; pose proof sqrt5_bounds as Hb.
  assert (Hn : 0 < IZR n) by (apply IZR_lt; lia).
  assert (Hm0 : 0 < IZR m) by (apply IZR_lt; lia).
  assert (Hmn : IZR m <= IZR n) by (apply IZR_le; lia).
  set (r := IZR m / IZR n).
  assert (Hr0 : 0 < r) by (apply Rdiv_lt_0_compat; assumption).
  assert (Hrn : r * IZR n = IZR m) by (unfold r; field; lra).
  assert (Hr1 : r <= 1) by nra.
  assert (Hr3 : 0 < r ^ 3 <= 1).
  { split; [apply pow_lt; assumption|].
    assert (r * r <= 1) by nra. nra. }
  split; intros E.
  - (* r^3 = (3 - sqrt 5)/2 would make sqrt 5 rational *)
    assert (Hc : r ^ 3 = (3 - sqrt5) / 2).
    { assert (Hsq : (r ^ 3) ^ 2 = ((3 - sqrt5) / 2) ^ 2) by (rewrite <- E; ring).
      assert (Hf : (r ^ 3 - (3 - sqrt5) / 2) * (r ^ 3 + (3 - sqrt5) / 2) = 0) by nra.
      apply Rmult_integral in Hf; destruct Hf as [Hf|Hf]; lra. }
    assert (Hs : sqrt5 * IZR n ^ 3 = 3 * IZR n ^ 3 - 2 * IZR m ^ 3).
    { rewrite <- Hrn.
      replace ((r * IZR n) ^ 3) with (r ^ 3 * IZR n ^ 3) by ring.
      rewrite Hc; field. }
    assert (Hz : ((3 * (n * n * n) - 2 * (m * m * m)) * (3 * (n * n * n) - 2 * (m * m * m))
                  = 5 * (n * n * n * (n * n * n)))%Z).
    { apply eq_IZR.
      rewrite !mult_IZR, minus_IZR, !mult_IZR.
      transitivity ((3 * IZR n ^ 3 - 2 * IZR m ^ 3) * (3 * IZR n ^ 3 - 2 * IZR m ^ 3));
        [ring|].
      rewrite <- Hs.
      transitivity (sqrt5 * sqrt5 * (IZR n ^ 3 * IZR n ^ 3)); [ring|].
      rewrite H5; ring. }
    apply sqrt5_irrational in Hz.
    assert (0 < n * n * n)%Z by (repeat apply Z.mul_pos_pos; lia).
    lia.
  - (* r^6 <= 1 < ((3 + sqrt 5)/2)^2 *)
    assert ((r ^ 2) ^ 3 <= 1).
    { replace ((r ^ 2) ^ 3) with (r ^ 3 * r ^ 3) by ring. nra. }
    nra.
Qed.

Lemma grid_sample_denom (n_r ring m k : Z) :
  (1 <= m < n_r)%Z -> denom (Spec.grid_sample n_r ring m k) <> C0.
Proof.
  intros Hm E; apply denom_zero_norm in E.
  rewrite grid_sample_norm2 in E.
  destruct (rational_radius_regular m (n_r - 1) ltac:(lia)) as [H1 H2].
  destruct E as [E|E]; [apply H1|apply H2]; exact E.
Qed.

Lemma grid_sample_in_disk (n_r ring m k : Z) :
  (1 <= m < n_r)%Z -> Cnorm2 (Spec.grid_sample n_r ring m k) <= 1.
Proof.
  intros Hm; rewrite grid_sample_norm2.
  assert (Hn : 0 < IZR (n_r - 1)) by (apply IZR_lt; lia).
  assert (Hm0 : 0 < IZR m) by (apply IZR_lt; lia).
  assert (Hmn : IZR m <= IZR (n_r - 1)) by (apply IZR_le; lia).
  assert (Hr0 : 0 < IZR m / IZR (n_r - 1)) by (apply Rdiv_lt_0_compat; assumption).
  set (r := IZR m / IZR (n_r - 1)) in *.
  assert (Hrn : r * IZR (n_r - 1) = IZR m) by (unfold r; field; lra).
  assert (Hr1 : r <= 1) by nra.
  nra.
Qed.

End EvaluatedPoints.

(** X19.  In exact arithmetic the formula of the evaluator is not defined
    on the whole closed unit disk: the real point [pole] (the cube root of
    [(3 - sqrt 5)/2], about [0.7256]) lies in the disk and the denominator
    [w^6 + sqrt(5) w^3 - 1] is zero there.  (No binary64 value equals this
    irrational point; nothing is said about the rounded evaluation.) *)
Lemma denominator_vanishes_in_disk :
  (Cnorm2 pole <= 1)%R /\ denom pole = C0 /\
  ~ (forall w : C, (Cnorm2 w <= 1)%R -> denom w <> C0).
Proof.
  split; [apply pole_in_disk|]; split; [apply pole_denom|].
  intros H; exact (H pole pole_in_disk pole_denom).
Qed.

(** X20.  In exact arithmetic the points that [build] evaluates avoid the
    zeros of the denominator.  At the centre [w = 0] the denominator is
    [-1] and the norm [g] is [0.25].  Every entry of the parameter grid of
    step 1 is a sample [(m/(n_r-1)) e^(i 2 pi k/n_phi)], lies in the closed
    unit disk and has a nonzero denominator (its radius is rational, the
    zeros of the denominator have an irrational one).  The grid of a valid
    configuration is not empty. *)
Theorem evaluated_points_regular :
  (denom C0 <> C0 /\ g C0 <> 0%R) /\
  (forall n_r ring w,
     In w (Grid.w_grid n_r ring) ->
     (exists m k, 1 <= m < n_r /\ 0 <= k < ring /\ w = Spec.grid_sample n_r ring m k) /\
     (Cnorm2 w <= 1)%R /\ denom w <> C0) /\
  (forall self, valid self -> Grid.w_grid (n_r self) (n_phi self) <> []).
Proof.
  split; [|split].
  - split.
    + rewrite denom_C0; unfold C0, RtoC; intros [= H]; lra.
    + rewrite g_C0; decimals; lra.
  - intros n_r ring w Hw; pose proof Hw as Hs; apply w_grid_In in Hs.
    split; [exact Hs|].
    destruct Hs as (m & k & Hm & Hk & ->); split.
    + now apply grid_sample_in_disk.
    + now apply grid_sample_denom.
  - intros self (Hr & Hp & _) E.
    pose proof (w_grid_length (n_r self) (n_phi self)) as Hl.
    rewrite E in Hl; simpl in Hl.
    assert (0 < pred (Z.to_nat (n_r self)) * Z.to_nat (n_phi self))%nat; [|lia].
    apply Nat.mul_pos_pos; lia.
Qed.

(** * Further properties of the code *)

(** ** Layout of the vertex list *)

Lemma nth_error_flat_map_const {A B : Type} (f : A -> list B) (k : nat) (l : list A) :
  (forall x, In x l -> List.length (f x) = k) ->
  forall i j x, nth_error l i = Some x -> (j < k)%nat ->
  nth_error (flat_map f l) (i * k + j) = nth_error (f x) j.
Proof.
  induction l as [|y l IH]; intros Hk i j x Hi Hj; [destruct i; discriminate|].
  simpl flat_map; destruct i as [|i]; simpl in Hi.
  - injection Hi as ->; simpl.
    apply nth_error_app1; rewrite Hk by (simpl; auto); exact Hj.
  - rewrite nth_error_app2 by (rewrite Hk by (simpl; auto); simpl; lia).
    rewrite Hk by (simpl; auto).
    replace (S i * k + j - k)%nat with (i * k + j)%nat by (simpl; lia).
    apply IH; auto; intros; apply Hk; simpl; auto.
Qed.

Lemma nth_error_range (n : Z) (i : nat) :
  (i < Z.to_nat n)%nat -> nth_error (Py.range n) i = Some (Z.of_nat i).
Proof.
  intros Hi; unfold Py.range.
  rewrite nth_error_map, nth_error_seq.
  destruct (Nat.ltb_spec i (Z.to_nat n)); [reflexivity|lia].
Qed.

Lemma nth_error_tl {A : Type} (l : list A) (i : nat) :
  nth_error (tl l) i = nth_error l (S i).
Proof. destruct l; [now destruct i|reflexivity]. Qed.

Lemma w_grid_nth (n_r ring i k : Z) :
  0 <= i < n_r - 1 -> 0 <= k < ring ->
  nth_error (Grid.w_grid n_r ring) (Z.to_nat (i * ring + k))
  = Some (Spec.grid_sample n_r ring (i + 1) k).
Proof.
  intros Hi Hk; unfold Grid.w_grid; cbv zeta.
  replace (Z.to_nat (i * ring + k))
    with (Z.to_nat i * Z.to_nat ring + Z.to_nat k)%nat by nia.
  rewrite (nth_error_flat_map_const _ (Z.to_nat ring) _
             (fun _ _ => eq_trans (length_map _ _) (linspace_length _ _ _ _))
             (Z.to_nat i) (Z.to_nat k)
             (0 + IZR (i + 1) * ((1 - 0) / IZR (n_r - 1)))%R).
  - unfold Grid.linspace; cbv zeta.
    rewrite !nth_error_map, nth_error_range by lia.
    rewrite Z2Nat.id by lia; cbn [option_map].
    now rewrite polar_sample, radius_eq, angle_eq.
  - unfold Grid.linspace; cbv zeta.
    rewrite nth_error_tl, nth_error_map, nth_error_range by lia.
    cbn [option_map]; do 4 f_equal; lia.
  - lia.
Qed.

Lemma build_faces_ok (n_r ring : Z) (f : Face) :
  2 <= n_r -> 4 <= ring -> ring mod 2 = 0 ->
  In f (build_faces n_r ring) ->
  in_range 1 (1 + (n_r - 1) * ring) f /\ pairwise_distinct f.
Proof.
  intros Hr Hp He Hf.
  rewrite build_faces_eq, !in_app_iff in Hf.
  destruct Hf as [Hf|[Hf|Hf]].
  - apply in_flat_map in Hf; destruct Hf as (i & Hi & Hf).
    unfold strip_ring in Hf; apply in_flat_map in Hf; destruct Hf as (j & Hj & Hf).
    apply range_In in Hi, Hj.
    apply (strip_cell_ok n_r ring i j); auto; lia.
  - apply in_flat_map in Hf; destruct Hf as (j & Hj & Hf).
    apply range_In in Hj.
    apply (mobius_cell_ok n_r ring j); auto.
  - apply in_map_iff in Hf; destruct Hf as (j & <- & Hj).
    apply range_In in Hj.
    apply fan_cell_ok; lia.
Qed.

Lemma vertex_at_centre (self : BoysSurfaceGenerator) :
  vertex_at (build self) centre_idx = Some (_xyz C0).
Proof. reflexivity. Qed.

Lemma vertex_at_ring (self : BoysSurfaceGenerator) (i k : Z) :
  0 <= i < n_r self - 1 -> 0 <= k < n_phi self ->
  vertex_at (build self) (first_ring_start + i * n_phi self + k)
  = Some (_xyz (Spec.grid_sample (n_r self) (n_phi self) (i + 1) k)).
Proof.
  intros Hi Hk; unfold vertex_at, first_ring_start.
  assert (H0 : 0 <= i * n_phi self) by nia.
  destruct (Z.ltb_spec (2 + i * n_phi self + k) 1); [lia|].
  unfold build, Grid.build_vertices; cbv zeta; cbn [vertices].
  replace (Z.to_nat (2 + i * n_phi self + k - 1))
    with (S (Z.to_nat (i * n_phi self + k))) by lia.
  cbn [nth_error]; rewrite nth_error_map, w_grid_nth by lia.
  reflexivity.
Qed.

Lemma vertex_at_defined (self : BoysSurfaceGenerator) (v : Z) :
  2 <= n_r self -> 0 <= n_phi self ->
  (vertex_at (build self) v <> None <-> 1 <= v <= 1 + (n_r self - 1) * n_phi self).
Proof.
  intros Hr Hp; unfold vertex_at.
  pose proof (build_vertices_length (n_r self) (n_phi self) Hr Hp) as Hl.
  assert (Hl' : Z.of_nat (List.length (vertices (build self)))
                = 1 + (n_r self - 1) * n_phi self) by exact Hl.
  destruct (Z.ltb_spec v 1) as [Hlt|Hge].
  - split; [congruence|lia].
  - rewrite nth_error_Some; lia.
Qed.

(** X1.  Layout of the vertex list: position 1 holds the evaluator's value
    at [0], and for ring [i] ([0 <= i < n_r - 1], counted outward) and
    angular index [k] ([0 <= k < n_phi]) position [2 + i*n_phi + k] holds
    the evaluator's value at the grid sample of radius [(i+1)/(n_r-1)] and
    angle [2 pi k / n_phi]. *)
Theorem vertex_layout (self : BoysSurfaceGenerator) (i k : Z) :
  0 <= i < n_r self - 1 -> 0 <= k < n_phi self ->
  vertex_at (build self) 1 = Some (_xyz C0) /\
  vertex_at (build self) (2 + i * n_phi self + k)
  = Some (_xyz (Spec.grid_sample (n_r self) (n_phi self) (i + 1) k)).
Proof.
  intros Hi Hk; split; [apply vertex_at_centre|now apply vertex_at_ring].
Qed.

Lemma vertex_layout_4_6 :
  vertex_at (build {| n_r := 4; n_phi := 6 |}) 19
  = Some (_xyz (Spec.grid_sample 4 6 3 5)).
Proof.
  exact (proj2 (vertex_layout {| n_r := 4; n_phi := 6 |} 2 5
                  ltac:(simpl; lia) ltac:(simpl; lia))).
Defined.

(** X2.  A 1-based index resolves to a vertex exactly when it lies between
    [1] and the vertex count [1 + (n_r-1)*n_phi]; index [0] and negative
    indices resolve to nothing. *)
Theorem vertex_index_bounds (self : BoysSurfaceGenerator) (v : Z) :
  2 <= n_r self -> 0 <= n_phi self ->
  (vertex_at (build self) v = None <->
   v < 1 \/ 1 + (n_r self - 1) * n_phi self < v).
Proof.
  intros Hr Hp; pose proof (vertex_at_defined self v Hr Hp) as H.
  destruct (vertex_at (build self) v) eqn:E; split; intros H'.
  - discriminate.
  - assert (Some p <> None) by discriminate; apply H in H0; lia.
  - destruct (Z_lt_le_dec v 1); [lia|].
    destruct (Z_lt_le_dec (1 + (n_r self - 1) * n_phi self) v); [lia|].
    exfalso; apply (proj2 H); [lia|reflexivity].
  - reflexivity.
Qed.

Lemma vertex_index_bounds_2_4 :
  vertex_at (build {| n_r := 2; n_phi := 4 |}) 0 = None /\
  vertex_at (build {| n_r := 2; n_phi := 4 |}) 6 = None.
Proof.
  split.
  - apply (vertex_index_bounds {| n_r := 2; n_phi := 4 |} 0); simpl; lia.
  - apply (vertex_index_bounds {| n_r := 2; n_phi := 4 |} 6); simpl; lia.
Defined.

(** X3.  No dangling index: for every valid configuration, each of the
    three entries of each returned face resolves to a vertex of the
    returned vertex list. *)
Theorem faces_resolve (self : BoysSurfaceGenerator) (f : Face) (v : Z) :
  valid self ->
  In f (faces (build self)) -> In v (face_indices f) ->
  exists p, vertex_at (build self) v = Some p.
Proof.
  intros (Hr & Hp & He) Hf Hv.
  destruct (build_faces_ok (n_r self) (n_phi self) f Hr Hp He Hf) as [Hin _].
  unfold in_range in Hin; rewrite Forall_forall in Hin; specialize (Hin v Hv).
  destruct (vertex_at (build self) v) eqn:E; [eauto|].
  exfalso; apply (vertex_at_defined self v); [lia|lia|exact Hin|exact E].
Qed.

Lemma faces_resolve_2_4 :
  exists p, vertex_at (build {| n_r := 2; n_phi := 4 |}) 4 = Some p.
Proof.
  apply (faces_resolve {| n_r := 2; n_phi := 4 |} (3, 4, 2) 4).
  - unfold valid; simpl; repeat split; lia.
  - vm_compute; auto.
  - simpl; auto.
Defined.

(** ** The evaluator on the unit circle *)

(** Unfold the complex operations of a goal down to real polynomials. *)
Ltac to_reals :=
  unfold denom, z6, Cnorm2, Csub, Cadd, Cneg, C1, RtoC; cbn [Cpow];
  unfold Cmul, C1, RtoC; cbn [fst snd].

Section UnitCircle.

#[local] Open Scope R_scope.

Lemma denom_norm_antipodal (c s : R) :
  c * c + s * s = 1 ->
  Cnorm2 (denom (Cneg (c, s))) = Cnorm2 (denom (c, s)).
Proof.
  intros H1; generalize sqrt5_sqr; generalize sqrt5; intros s5 H5.
  to_reals; nsatz.
Qed.

Lemma g1_antipodal (c s : R) :
  c * c + s * s = 1 -> g1 (Cneg (c, s)) = g1 (c, s).
Proof.
  intros H1; unfold g1, Im, Cdiv; cbn [snd].
  rewrite (denom_norm_antipodal c s H1); unfold Rdiv; do 2 f_equal.
  generalize sqrt5_sqr; generalize sqrt5; intros s5 H5.
  to_reals; nsatz.
Qed.

Lemma g2_antipodal (c s : R) :
  c * c + s * s = 1 -> g2 (Cneg (c, s)) = g2 (c, s).
Proof.
  intros H1; unfold g2, Re, Cdiv; cbn [fst].
  rewrite (denom_norm_antipodal c s H1); unfold Rdiv; do 2 f_equal.
  generalize sqrt5_sqr; generalize sqrt5; intros s5 H5.
  to_reals; nsatz.
Qed.

Lemma g3_antipodal (c s : R) :
  c * c + s * s = 1 -> g3 (Cneg (c, s)) = g3 (c, s).
Proof.
  intros H1; unfold g3, Im, Cdiv; cbn [snd].
  rewrite (denom_norm_antipodal c s H1); unfold Rminus, Rdiv; do 2 f_equal.
  generalize sqrt5_sqr; generalize sqrt5; intros s5 H5.
  to_reals; nsatz.
Qed.

Lemma xyz_Cneg (w : C) : Cnorm2 w = 1 -> _xyz (Cneg w) = _xyz w.
Proof.
  destruct w as [c s]; unfold Cnorm2; cbn [fst snd]; intros H1.
  unfold _xyz, g.
  now rewrite g1_antipodal, g2_antipodal, g3_antipodal.
Qed.

(** X4.  On the unit circle the evaluator takes the same value at [w] and
    at [-w]: the identification of opposite boundary points that the
    half-turn join of the outer ring relies on. *)
Theorem xyz_antipodal (w : C) :
  Cnorm2 w = 1 -> _xyz (Cneg w) = _xyz w.
Proof. exact (xyz_Cneg w). Qed.

Lemma xyz_antipodal_one : _xyz (Cneg C1) = _xyz C1.
Proof.
  apply (xyz_antipodal C1).
  unfold Cnorm2, C1, RtoC; cbn [fst snd]; ring.
Defined.

End UnitCircle.

(** ** The seam: vertices paired by the half-turn join *)

Section Seam.

#[local] Open Scope R_scope.

Lemma cos_sin_minus_PI (x : R) : cos (x - PI) = - cos x /\ sin (x - PI) = - sin x.
Proof.
  pose proof (neg_cos (x - PI)) as Hc; pose proof (neg_sin (x - PI)) as Hs.
  replace (x - PI + PI) with x in * by ring.
  split; lra.
Qed.

Lemma grid_sample_outer_norm (n_r ring k : Z) :
  (2 <= n_r)%Z -> Cnorm2 (Spec.grid_sample n_r ring (n_r - 1) k) = 1.
Proof.
  intros Hr; rewrite grid_sample_norm2.
  assert (0 < IZR (n_r - 1)) by (apply IZR_lt; lia).
  field; lra.
Qed.

Lemma grid_sample_opposite (n_r ring m k : Z) :
  (2 <= ring)%Z -> (ring mod 2 = 0)%Z -> (0 <= k < ring)%Z ->
  Spec.grid_sample n_r ring m (Spec.opposite ring k)
  = Cneg (Spec.grid_sample n_r ring m k).
Proof.
  intros Hp He Hk; pose proof (even_half ring He) as Hh.
  rewrite opposite_half_turn.
  assert (Hn : 0 < IZR ring) by (apply IZR_lt; lia).
  assert (Hh' : IZR ring = 2 * IZR (half_turn ring))
    by (rewrite Hh at 1; now rewrite mult_IZR).
  unfold Spec.grid_sample, Cneg; cbv zeta; cbn [fst snd].
  set (r := IZR m / IZR (n_r - 1)); set (phi := 2 * PI * IZR k / IZR ring).
  destruct (mod_wrap ring (k + half_turn ring)) as [[_ E]|[_ E]]; try lia; rewrite E.
  - replace (2 * PI * IZR (k + half_turn ring) / IZR ring) with (phi + PI).
    + rewrite neg_cos, neg_sin; f_equal; ring.
    + unfold phi; rewrite plus_IZR, Hh'; field.
      intros Hz; rewrite Hh' in Hn; lra.
  - replace (2 * PI * IZR (k + half_turn ring - ring) / IZR ring) with (phi - PI).
    + destruct (cos_sin_minus_PI phi) as [-> ->]; f_equal; ring.
    + unfold phi; rewrite minus_IZR, plus_IZR, Hh'; field.
      intros Hz; rewrite Hh' in Hn; lra.
Qed.

Lemma seam_pair (self : BoysSurfaceGenerator) (j : Z) :
  valid self -> (0 <= j < n_phi self)%Z ->
  exists p,
    vertex_at (build self) (outer_ring_start (n_r self) (n_phi self) + j) = Some p /\
    vertex_at (build self)
      (outer_ring_start (n_r self) (n_phi self) + Spec.opposite (n_phi self) j) = Some p.
Proof.
  intros (Hr & Hp & He) Hj.
  pose proof (Z.mod_pos_bound (j + n_phi self / 2) (n_phi self) ltac:(lia)) as Ho.
  fold (Spec.opposite (n_phi self) j) in Ho.
  unfold outer_ring_start.
  rewrite !vertex_at_ring by lia.
  replace (n_r self - 2 + 1)%Z with (n_r self - 1)%Z by ring.
  eexists; split; [reflexivity|].
  rewrite grid_sample_opposite by (assumption || lia).
  now rewrite xyz_Cneg by (apply grid_sample_outer_norm; lia).
Qed.

(** X5.  In exact arithmetic the seam is welded: for every valid
    configuration and every angular index [j], the evaluator's exact values
    at the parameters of outer-ring vertex [j] and of the outer-ring vertex
    at the opposite index [(j + n_phi/2) mod n_phi] are the same point.
    (The vertex list of this model holds exact values; the binary64
    coordinates of the program agree only up to rounding, about which
    nothing is stated.) *)
Theorem seam_vertices_coincide (self : BoysSurfaceGenerator) (j : Z) :
  valid self -> (0 <= j < n_phi self)%Z ->
  exists p,
    vertex_at (build self) (outer_ring_start (n_r self) (n_phi self) + j) = Some p /\
    vertex_at (build self)
      (outer_ring_start (n_r self) (n_phi self) + Spec.opposite (n_phi self) j) = Some p.
Proof. exact (seam_pair self j). Qed.

Lemma seam_vertices_coincide_4_6 :
  exists p,
    vertex_at (build {| n_r := 4; n_phi := 6 |}) 14 = Some p /\
    vertex_at (build {| n_r := 4; n_phi := 6 |}) 17 = Some p.
Proof.
  exact (seam_vertices_coincide {| n_r := 4; n_phi := 6 |} 0 valid_4_6
           ltac:(simpl; lia)).
Defined.

Lemma opposite_succ (ring j : Z) :
  (0 < ring)%Z ->
  Spec.opposite ring ((j + 1) mod ring) = ((j + half_turn ring + 1) mod ring)%Z.
Proof.
  intros Hp; rewrite opposite_half_turn, Z.add_mod_idemp_l by lia.
  f_equal; ring.
Qed.

(** X6.  Every triangle appended by the half-turn join is in the returned
    face list and has three distinct indices, and in exact arithmetic two of
    its corners are the same point: with exact coordinates the [2 * n_phi]
    faces of the join have zero area.  (Nothing is stated about the rounded
    binary64 coordinates.) *)
Theorem mobius_faces_collapsed (self : BoysSurfaceGenerator) (j : Z) (f : Face) :
  valid self -> (0 <= j < n_phi self)%Z ->
  In f (mobius_cell (n_r self) (n_phi self) j) ->
  collapsed (build self) f /\ pairwise_distinct f /\ In f (faces (build self)).
Proof.
  intros Hv Hj Hf; pose proof Hv as (Hr & Hp & He).
  split; [|split].
  - unfold mobius_cell in Hf; cbv zeta in Hf; cbn [In] in Hf.
    destruct Hf as [<-|[<-|[]]]; unfold collapsed.
    + destruct (seam_pair self j Hv Hj) as (p & Ha & Hb).
      rewrite opposite_half_turn in Hb.
      exists p; right; left; split; assumption.
    + pose proof (Z.mod_pos_bound (j + 1) (n_phi self) ltac:(lia)) as Hj1.
      destruct (seam_pair self _ Hv Hj1) as (p & Ha & Hb).
      rewrite opposite_succ in Hb by lia.
      exists p; left; split; assumption.
  - apply (mobius_cell_ok (n_r self) (n_phi self) j f); assumption.
  - unfold build; cbv zeta; cbn [faces].
    rewrite build_faces_eq, !in_app_iff; right; left.
    apply in_flat_map; exists j; split; [apply range_In; lia|assumption].
Qed.

End Seam.

Lemma mobius_faces_collapsed_4_6 :
  collapsed (build {| n_r := 4; n_phi := 6 |}) (15, 17, 14) /\
  pairwise_distinct (15, 17, 14) /\
  In (15, 17, 14) (faces (build {| n_r := 4; n_phi := 6 |})).
Proof.
  apply (mobius_faces_collapsed {| n_r := 4; n_phi := 6 |} 0 (15, 17, 14) valid_4_6).
  - simpl; lia.
  - left; reflexivity.
Defined.

(** ** Three-fold symmetry of the evaluator *)

Lemma sqrt3_sqr : (sqrt 3 * sqrt 3 = 3)%R.
Proof. apply sqrt_sqrt; lra. Qed.

Lemma half_double : (2 * / 2 = 1)%R.
Proof. lra. Qed.

(** Split an equation between tuples into its components. *)
Ltac split_pairs :=
  repeat match goal with
         | |- (_, _) = (_, _) => apply f_equal2
         end;
  try reflexivity.

(** Turn [sqrt 3] and [/ 2] into variables constrained by their defining
    equations, for the polynomial solver. *)
Ltac abstract_constants :=
  unfold Rdiv;
  generalize half_double; generalize (/ 2)%R; intros h Hh;
  generalize sqrt3_sqr; generalize (sqrt 3); intros s3 H3.

Section ThreeFold.

#[local] Open Scope R_scope.

Lemma denom_omega3 (w : C) : denom (Cmul omega3 w) = denom w.
Proof.
  destruct w as [c s]; unfold omega3.
  abstract_constants; generalize sqrt5; intros s5.
  to_reals; f_equal; nsatz.
Qed.

Lemma g1_omega3 (w : C) :
  g1 (Cmul omega3 w) = - (1 / 2) * g1 w + sqrt 3 / 2 * g2 w.
Proof.
  unfold g1, g2, Im, Re, Cdiv; rewrite denom_omega3; cbn [fst snd].
  destruct (denom w) as [dr di]; destruct w as [c s]; unfold omega3.
  generalize (/ Cnorm2 (dr, di)); intros n.
  decimals; abstract_constants; to_reals; nsatz.
Qed.

Lemma g2_omega3 (w : C) :
  g2 (Cmul omega3 w) = - (sqrt 3 / 2) * g1 w - 1 / 2 * g2 w.
Proof.
  unfold g1, g2, Im, Re, Cdiv; rewrite denom_omega3; cbn [fst snd].
  destruct (denom w) as [dr di]; destruct w as [c s]; unfold omega3.
  generalize (/ Cnorm2 (dr, di)); intros n.
  decimals; abstract_constants; to_reals; nsatz.
Qed.

Lemma g3_omega3 (w : C) : g3 (Cmul omega3 w) = g3 w.
Proof.
  unfold g3, Im, Cdiv; rewrite denom_omega3; cbn [fst snd].
  destruct (denom w) as [dr di]; destruct w as [c s]; unfold omega3.
  generalize (/ Cnorm2 (dr, di)); intros n.
  decimals; abstract_constants; to_reals; nsatz.
Qed.

Lemma g_omega3 (w : C) : g (Cmul omega3 w) = g w.
Proof.
  unfold g; rewrite g1_omega3, g2_omega3, g3_omega3.
  generalize (g1 w) (g2 w) (g3 w); intros a b c.
  cbn [pow]; abstract_constants; nsatz.
Qed.

Lemma xyz_omega3 (w : C) : _xyz (Cmul omega3 w) = rot3 (_xyz w).
Proof.
  unfold _xyz, rot3.
  rewrite g_omega3, g1_omega3, g2_omega3, g3_omega3.
  split_pairs; unfold Rdiv; ring.
Qed.

(** X7.  Three-fold symmetry: multiplying the parameter by the cube root of
    unity [e^(2 pi i/3)] rotates the evaluator's value by a third of a
    turn about the third axis; the denominator and the norm [g] are
    unchanged, and three such steps return to the same point. *)
Theorem xyz_threefold (w : C) :
  denom (Cmul omega3 w) = denom w /\
  g (Cmul omega3 w) = g w /\
  _xyz (Cmul omega3 w) = rot3 (_xyz w) /\
  rot3 (rot3 (rot3 (_xyz w))) = _xyz w.
Proof.
  split; [apply denom_omega3|]; split; [apply g_omega3|]; split; [apply xyz_omega3|].
  destruct (_xyz w) as [[x y] z]; unfold rot3.
  abstract_constants.
  split_pairs; nsatz.
Qed.

End ThreeFold.

(** ** The evaluator as an inversion *)

Section Inversion.

#[local] Open Scope R_scope.

(** X8.  Where the norm [g] is not zero, the returned point is the image
    of [(g1, g2, g3)] under inversion in the unit sphere: its squared
    distance from the origin is [1/g], inverting it again gives back
    [(g1, g2, g3)], and it is never the origin. *)
Theorem xyz_inversion (w : C) :
  g w <> 0 ->
  (let '(x, y, z) := _xyz w in x * x + y * y + z * z = 1 / g w) /\
  invert (_xyz w) = (g1 w, g2 w, g3 w) /\
  _xyz w <> (0, 0, 0).
Proof.
  intros Hg; unfold _xyz, invert.
  assert (Hn : g1 w / g w * (g1 w / g w) + g2 w / g w * (g2 w / g w)
               + g3 w / g w * (g3 w / g w) = 1 / g w).
  { unfold g in *; field; exact Hg. }
  split; [exact Hn|]; split.
  - rewrite Hn; split_pairs; field; exact Hg.
  - intros E; injection E as E1 E2 E3.
    rewrite E1, E2, E3 in Hn.
    assert (Hi : 1 / g w <> 0).
    { unfold Rdiv; rewrite Rmult_1_l; apply Rinv_neq_0_compat; exact Hg. }
    apply Hi; rewrite <- Hn; ring.
Qed.

Lemma xyz_inversion_centre :
  g C0 <> 0 /\ invert (_xyz C0) = (g1 C0, g2 C0, g3 C0).
Proof.
  assert (Hg : g C0 <> 0) by (rewrite g_C0; decimals; lra).
  split; [exact Hg|].
  exact (proj1 (proj2 (xyz_inversion C0 Hg))).
Defined.

End Inversion.

(** ** Double cover of the boundary band *)

Lemma opposite_twice (ring j : Z) :
  2 <= ring -> ring mod 2 = 0 -> 0 <= j < ring ->
  Spec.opposite ring (Spec.opposite ring j) = j.
Proof.
  intros Hp He Hj; pose proof (even_half ring He) as Hh.
  rewrite !opposite_half_turn.
  set (h := half_turn ring) in *.
  destruct (mod_wrap ring (j + h)) as [[Hc E]|[Hc E]]; try lia; rewrite E.
  - destruct (mod_wrap ring (j + h + h)) as [[Hc' E']|[Hc' E']]; lia.
  - destruct (mod_wrap ring (j + h - ring + h)) as [[Hc' E']|[Hc' E']]; lia.
Qed.

(** X9.  The half-turn join covers every boundary quad twice: if the cell
    of index [j] is [(an, b, a); (an, bn, b)], the cell of the opposite
    index is [(bn, a, b); (bn, an, a)], the same four corners split along
    the other diagonal. *)
Theorem mobius_double_cover (n_r ring j : Z) :
  2 <= ring -> ring mod 2 = 0 -> 0 <= j < ring ->
  exists a an b bn,
    mobius_cell n_r ring j = [(an, b, a); (an, bn, b)] /\
    mobius_cell n_r ring (Spec.opposite ring j) = [(bn, a, b); (bn, an, a)].
Proof.
  intros Hp He Hj.
  pose proof (opposite_twice ring j Hp He Hj) as Hinv.
  rewrite !opposite_half_turn in Hinv.
  do 4 eexists; split; [reflexivity|].
  unfold mobius_cell; cbv zeta; rewrite opposite_half_turn.
  rewrite Hinv.
  replace (((j + half_turn ring) mod ring + 1) mod ring)
    with ((j + half_turn ring + 1) mod ring)
    by (now rewrite (Z.add_mod_idemp_l (j + half_turn ring) 1 ring) by lia).
  replace (((j + half_turn ring) mod ring + half_turn ring + 1) mod ring)
    with ((j + 1) mod ring).
  - reflexivity.
  - rewrite <- (Z.add_mod_idemp_l (_ + half_turn ring) 1 ring) by lia.
    rewrite Hinv; reflexivity.
Qed.

Lemma mobius_double_cover_6_1 :
  exists a an b bn,
    mobius_cell 4 6 1 = [(an, b, a); (an, bn, b)] /\
    mobius_cell 4 6 (Spec.opposite 6 1) = [(bn, a, b); (bn, an, a)].
Proof. apply (mobius_double_cover 4 6 1); [lia|reflexivity|lia]. Defined.

(** ** The constructor on integral and half-integral products *)

Lemma round_compat (x y : Q) : (x == y)%Q -> Py.round x = Py.round y.
Proof.
  intros E; unfold Py.round; cbv zeta.
  rewrite (Qfloor_comp x y E).
  assert (Ed : (x - inject_Z (Qfloor y) == y - inject_Z (Qfloor y))%Q) by now rewrite E.
  now rewrite (Qcompare_comp _ _ Ed (1 # 2) (1 # 2) (Qeq_refl _)).
Qed.

Lemma round_inject_Z (z : Z) : Py.round (inject_Z z) = z.
Proof.
  unfold Py.round; cbv zeta; rewrite Qfloor_Z.
  assert (E : (inject_Z z - inject_Z z == 0)%Q) by ring.
  now rewrite (Qcompare_comp _ _ E (1 # 2) (1 # 2) (Qeq_refl _)).
Qed.

Lemma floor_half (z : Z) : Qfloor (inject_Z z + (1 # 2)) = z.
Proof.
  pose proof (Qfloor_le (inject_Z z + (1 # 2))) as Hle.
  pose proof (Qlt_floor (inject_Z z + (1 # 2))) as Hlt.
  set (f := Qfloor (inject_Z z + (1 # 2))) in *.
  assert (H1 : (inject_Z f < inject_Z (z + 1))%Q).
  { apply Qle_lt_trans with (inject_Z z + (1 # 2))%Q; [assumption|].
    rewrite inject_Z_plus; apply Qplus_lt_r; reflexivity. }
  assert (H2 : (inject_Z z < inject_Z (f + 1))%Q).
  { apply Qle_lt_trans with (inject_Z z + (1 # 2))%Q; [|assumption].
    rewrite <- (Qplus_0_r (inject_Z z)) at 1; apply Qplus_le_r; discriminate. }
  rewrite <- Zlt_Qlt in H1, H2; lia.
Qed.

Lemma round_half (z : Z) :
  Py.round (inject_Z z + (1 # 2)) = if Z.even z then z else z + 1.
Proof.
  unfold Py.round; cbv zeta; rewrite floor_half.
  assert (E : (inject_Z z + (1 # 2) - inject_Z z == 1 # 2)%Q) by ring.
  now rewrite (Qcompare_comp _ _ E (1 # 2) (1 # 2) (Qeq_refl _)).
Qed.

Lemma init_of_product (resolution : Z) (ratio p : Py.float) :
  2 <= resolution -> product resolution ratio = inr p ->
  init resolution ratio = guard resolution p.
Proof.
  intros Hr Ep; rewrite init_guard, Ep.
  destruct (Z.ltb_spec resolution 2); [lia|reflexivity].
Qed.

Lemma init_integral (resolution z : Z) (ratio p : Py.float) :
  2 <= resolution -> product resolution ratio = inr p ->
  Py.is_finite p = true -> (Py.F2Q p == inject_Z z)%Q ->
  init resolution ratio =
  if (4 <=? z) && Z.even z
  then inr {| n_r := resolution; n_phi := z |}
  else inl (ValueError msg_n_phi).
Proof.
  intros Hr Ep Hf Ev; rewrite (init_of_product _ _ _ Hr Ep).
  pose proof (round_compat _ _ Ev) as Er; rewrite round_inject_Z in Er.
  destruct (guard_finite resolution p Hf) as [(Hc & E)|(H4 & Hm & E)];
    rewrite E; rewrite Er in *.
  - destruct (Z.leb_spec 4 z) as [Hz|Hz]; [|reflexivity].
    destruct (Z.even z) eqn:Hev; [|reflexivity].
    apply even_mod2 in Hev.
    destruct Hc as [Hc|Hc]; [|contradiction].
    rewrite Ev in Hc; change 4%Q with (inject_Z 4) in Hc.
    rewrite <- Zlt_Qlt in Hc; lia.
  - rewrite Ev in H4; change 4%Q with (inject_Z 4) in H4.
    rewrite <- Zle_Qle in H4.
    apply even_mod2 in Hm; rewrite Hm.
    destruct (Z.leb_spec 4 z); [reflexivity|lia].
Qed.

(** X10.  When [resolution >= 2] and the binary64 product
    [ratio * resolution] of line 91 is finite with an integer value [z],
    construction succeeds exactly when [z] is even and at least 4, and then
    stores [n_phi = z]; otherwise it raises the [ValueError] about the
    product.  The product is the rounded one: for [resolution = 2^53 + 1]
    and ratio [2.0] it is [2^54]. *)
Theorem init_integral_product (resolution z : Z) (ratio p : Py.float) :
  2 <= resolution -> product resolution ratio = inr p ->
  Py.is_finite p = true -> (Py.F2Q p == inject_Z z)%Q ->
  init resolution ratio =
  if (4 <=? z) && Z.even z
  then inr {| n_r := resolution; n_phi := z |}
  else inl (ValueError msg_n_phi).
Proof. exact (init_integral resolution z ratio p). Qed.

Lemma init_integral_product_examples :
  init (2 ^ 53 + 1) (Py.b64 2 0) = inr {| n_r := 2 ^ 53 + 1; n_phi := 2 ^ 54 |} /\
  init 10 (Py.b64 5404319552844595 (-54)) = inl (ValueError msg_n_phi).
Proof.
  split.
  - apply (init_integral_product (2 ^ 53 + 1) (2 ^ 54) (Py.b64 2 0)
             (S754_finite false 4503599627370496 2)).
    + apply Z.leb_le; vm_compute; reflexivity.
    + vm_compute; reflexivity.
    + reflexivity.
    + vm_compute; reflexivity.
  - apply (init_integral_product 10 3 (Py.b64 5404319552844595 (-54))
             (S754_finite false 6755399441055744 (-51))).
    + lia.
    + vm_compute; reflexivity.
    + reflexivity.
    + vm_compute; reflexivity.
Defined.

(** *** Exact conversions and products *)

Lemma shr_fexp_keep (m : positive) (e : Z) :
  Zpos (digits2_pos m) = 53 -> -1074 <= e ->
  shr_fexp Py.prec Py.emax (Zpos m) e loc_Exact
  = ({| shr_m := Zpos m; shr_r := false; shr_s := false |}, e).
Proof.
  intros Hd He; unfold shr_fexp; cbn [Zdigits2 shr_record_of_loc].
  rewrite Hd.
  replace (fexp Py.prec Py.emax (53 + e) - e) with 0
    by (unfold fexp, emin, Py.prec, Py.emax; lia).
  reflexivity.
Qed.

Lemma round_aux_keep (m : positive) (e : Z) :
  Zpos (digits2_pos m) = 53 -> -1074 <= e <= 971 ->
  binary_round_aux Py.prec Py.emax false (Zpos m) e loc_Exact = S754_finite false m e.
Proof.
  intros Hd He; unfold binary_round_aux.
  rewrite shr_fexp_keep by (assumption || lia).
  cbn [shr_m loc_of_shr_record round_nearest_even].
  rewrite shr_fexp_keep by (assumption || lia).
  cbn [shr_m].
  destruct (Z.leb_spec e (Py.emax - Py.prec)) as [_|H]; [reflexivity|].
  unfold Py.emax, Py.prec in H; lia.
Qed.

Lemma digits2_size (m : positive) : digits2_pos m = Pos.size m.
Proof. induction m; simpl; congruence. Qed.

Lemma digits2_bound (m : positive) : Zpos m < 2 ^ 53 -> Zpos (digits2_pos m) <= 53.
Proof.
  intros Hm; rewrite digits2_size.
  pose proof (Pos.size_le m) as Hs.
  apply Pos2Z.pos_le_pos in Hs; rewrite Pos2Z.inj_pow in Hs.
  change (Zpos m~0) with (2 * Zpos m) in Hs.
  destruct (Z_le_gt_dec (Zpos (Pos.size m)) 53) as [Hle|Hgt]; [assumption|].
  assert (2 ^ 54 <= 2 ^ Zpos (Pos.size m)) by (apply Z.pow_le_mono_r; lia).
  change (2 ^ 54) with (2 * 2 ^ 53) in H; lia.
Qed.

Lemma iter_xO_digits (m k : positive) :
  Zpos (digits2_pos (Pos.iter xO m k)) = Zpos (digits2_pos m) + Zpos k.
Proof.
  induction k as [|k IH] using Pos.peano_ind.
  - cbn; lia.
  - rewrite Pos.iter_succ; cbn [digits2_pos]; lia.
Qed.

Lemma iter_xO_value (m k : positive) :
  Zpos (Pos.iter xO m k) = Zpos m * 2 ^ Zpos k.
Proof.
  induction k as [|k IH] using Pos.peano_ind.
  - cbn; lia.
  - rewrite Pos.iter_succ, Pos2Z.inj_succ, Z.pow_succ_r by lia.
    change (Zpos (Pos.iter xO m k)~0) with (2 * Zpos (Pos.iter xO m k)); lia.
Qed.

(** A positive integer below [2^53] converts to the float of the same
    value, with a 53-bit mantissa. *)
Lemma float_of_int_exact (m : positive) :
  Zpos m < 2 ^ 53 ->
  exists mz ez,
    Py.float_of_int (Zpos m) = inr (S754_finite false mz ez) /\
    Zpos (digits2_pos mz) = 53 /\ -52 <= ez <= 0 /\
    Zpos mz = Zpos m * 2 ^ (- ez).
Proof.
  intros Hm; pose proof (digits2_bound m Hm) as Hd.
  unfold Py.float_of_int, binary_normalize, binary_round.
  replace (fexp Py.prec Py.emax (Zpos (digits2_pos m) + 0))
    with (Zpos (digits2_pos m) - 53)
    by (unfold fexp, emin, Py.prec, Py.emax; lia).
  unfold shl_align.
  destruct (Zpos (digits2_pos m) - 53 - 0) as [|k|k] eqn:Ek; try lia.
  - rewrite round_aux_keep by lia.
    exists m, 0; repeat split; lia.
  - assert (Hk : Zpos k = 53 - Zpos (digits2_pos m)) by lia.
    rewrite round_aux_keep by (rewrite ?iter_xO_digits; lia).
    exists (Pos.iter xO m k), (Zpos (digits2_pos m) - 53); repeat split; try lia.
    + rewrite iter_xO_digits; lia.
    + rewrite iter_xO_value; f_equal; f_equal; lia.
Qed.

(** Multiplying a normal float by [2.0] adds one to its exponent. *)
Lemma fmul_two (m : positive) (e : Z) :
  Zpos (digits2_pos m) = 53 -> -1074 <= e -> e + 1 <= 971 ->
  Py.fmul (Py.b64 2 0) (S754_finite false m e) = S754_finite false m (e + 1).
Proof.
  intros Hd He Hmax.
  change (Py.b64 2 0) with (S754_finite false 4503599627370496 (-51)).
  unfold Py.fmul, SFmul, binary_round_aux.
  assert (Hs : shr_fexp Py.prec Py.emax (Z.pos (4503599627370496 * m)) (-51 + e) loc_Exact
               = ({| shr_m := Zpos m; shr_r := false; shr_s := false |}, e + 1)).
  { unfold shr_fexp; cbn [Zdigits2 shr_record_of_loc Pos.mul digits2_pos].
    rewrite !Pos2Z.inj_succ, Hd.
    replace (fexp Py.prec Py.emax _ - _) with 52
      by (unfold fexp, emin, Py.prec, Py.emax; lia).
    cbn [shr iter_pos shr_1 orb]; f_equal; lia. }
  rewrite Hs; cbn [shr_m loc_of_shr_record round_nearest_even].
  rewrite shr_fexp_keep by (assumption || lia).
  cbn [shr_m xorb].
  destruct (Z.leb_spec (e + 1) (Py.emax - Py.prec)) as [_|H]; [reflexivity|].
  unfold Py.emax, Py.prec in H; lia.
Qed.

Lemma F2Q_scaled (m mz : positive) (ez : Z) :
  -52 <= ez <= 0 -> Zpos mz = Zpos m * 2 ^ (- ez) ->
  (Py.F2Q (S754_finite false mz (ez + 1)) == inject_Z (2 * Zpos m))%Q.
Proof.
  intros He Hv; unfold Py.F2Q; rewrite Hv.
  rewrite !inject_Z_mult, (Zpower_Qpower 2 (- ez)) by lia.
  rewrite (Qpower_plus 2 ez 1) by discriminate.
  rewrite Qpower_opp.
  change (inject_Z 2) with 2%Q; change (2 ^ 1)%Q with 2%Q.
  assert (Hn : ~ (2 ^ ez == 0)%Q) by (apply Qpower_not_0; discriminate).
  field; exact Hn.
Qed.

Lemma product_default (resolution : Z) :
  2 <= resolution < 2 ^ 53 ->
  exists p, product resolution (Py.b64 2 0) = inr p /\ Py.is_finite p = true /\
            (Py.F2Q p == inject_Z (2 * resolution))%Q.
Proof.
  intros Hr; destruct resolution as [|m|m]; try lia.
  destruct (float_of_int_exact m (proj2 Hr)) as (mz & ez & Ef & Hd & He & Hv).
  unfold product; rewrite Ef, fmul_two by lia.
  eexists; split; [reflexivity|]; split; [reflexivity|].
  now apply F2Q_scaled.
Qed.

(** X11.  With the default ratio [2.0] every resolution from 2 up to, but
    not including, [2^53] is accepted, [n_phi] is twice the resolution, and
    the mesh that [build] returns has [1 + (resolution - 1) * 2 * resolution]
    vertices and [(2 * resolution - 1) * 2 * resolution] faces.  (From
    [2^53 + 1] on the conversion of the resolution to a float rounds.) *)
Theorem default_ratio_accepts (resolution : Z) :
  2 <= resolution < 2 ^ 53 ->
  exists mesh,
    init resolution (Py.b64 2 0)
    = inr {| n_r := resolution; n_phi := 2 * resolution |} /\
    construct_and_build resolution (Py.b64 2 0) = inr mesh /\
    Z.of_nat (List.length (vertices mesh)) = 1 + (resolution - 1) * (2 * resolution) /\
    Z.of_nat (List.length (faces mesh)) = (2 * resolution - 1) * (2 * resolution).
Proof.
  intros Hr.
  assert (E : init resolution (Py.b64 2 0)
              = inr {| n_r := resolution; n_phi := 2 * resolution |}).
  { destruct (product_default resolution Hr) as (p & Ep & Hf & Ev).
    rewrite (init_integral resolution (2 * resolution) _ p (proj1 Hr) Ep Hf Ev).
    destruct (Z.leb_spec 4 (2 * resolution)); [|lia].
    now rewrite Z.even_mul. }
  exists (build {| n_r := resolution; n_phi := 2 * resolution |}).
  split; [exact E|]; split; [unfold construct_and_build; now rewrite E|].
  unfold build; cbv zeta; cbn [vertices faces n_r n_phi].
  rewrite build_vertices_length, build_faces_length by lia.
  split; ring.
Qed.

(** The demo entry point: [resolution = 128]. *)
Lemma default_ratio_accepts_128 :
  exists mesh,
    init 128 (Py.b64 2 0) = inr {| n_r := 128; n_phi := 256 |} /\
    construct_and_build 128 (Py.b64 2 0) = inr mesh /\
    Z.of_nat (List.length (vertices mesh)) = 32513 /\
    Z.of_nat (List.length (faces mesh)) = 65280.
Proof.
  apply (default_ratio_accepts 128); split; [lia|reflexivity].
Defined.

(** X12.  Ties go to the even neighbour: when [resolution >= 2] and the
    binary64 product [ratio * resolution] of line 91 is finite with value
    exactly [z + 0.5], construction succeeds for every [z >= 4], with
    [n_phi = z] if [z] is even and [n_phi = z + 1] if [z] is odd, and it
    raises for [z <= 3].  So [resolution = 10], [ratio = 0.45], whose
    product is [4.5], is accepted with [n_phi = 4]. *)
Theorem init_half_integral_product (resolution z : Z) (ratio p : Py.float) :
  2 <= resolution -> product resolution ratio = inr p ->
  Py.is_finite p = true -> (Py.F2Q p == inject_Z z + (1 # 2))%Q ->
  (4 <= z ->
   init resolution ratio =
   inr {| n_r := resolution; n_phi := if Z.even z then z else z + 1 |}) /\
  (z <= 3 -> init resolution ratio = inl (ValueError msg_n_phi)).
Proof.
  intros Hr Ep Hf Ev; rewrite (init_of_product _ _ _ Hr Ep).
  pose proof (round_compat _ _ Ev) as Er; rewrite round_half in Er.
  assert (Hev : (if Z.even z then z else z + 1) mod 2 = 0).
  { destruct (Z.even z) eqn:Hz; [now apply even_mod2|].
    apply even_mod2; rewrite Z.even_add, Hz; reflexivity. }
  destruct (guard_finite resolution p Hf) as [(Hc & E)|(H4 & Hm & E)];
    rewrite E; rewrite Er in *.
  - split; [|reflexivity].
    intros Hz; exfalso.
    destruct Hc as [Hc|Hc]; [|contradiction].
    rewrite Ev in Hc.
    assert (H4 : (inject_Z 4 <= inject_Z z)%Q) by (rewrite <- Zle_Qle; lia).
    apply (Qlt_not_le _ _ Hc).
    apply Qle_trans with (inject_Z z); [exact H4|].
    rewrite <- (Qplus_0_r (inject_Z z)) at 1; apply Qplus_le_r; discriminate.
  - split; [reflexivity|].
    intros Hz; exfalso.
    rewrite Ev in H4.
    assert (H3 : (inject_Z z + (1 # 2) < 4)%Q).
    { apply Qle_lt_trans with (inject_Z 3 + (1 # 2))%Q; [|reflexivity].
      apply Qplus_le_l; rewrite <- Zle_Qle; lia. }
    apply (Qlt_not_le _ _ H3); exact H4.
Qed.

Lemma init_half_integral_product_examples :
  init 10 (Py.b64 8106479329266893 (-54)) = inr {| n_r := 10; n_phi := 4 |} /\
  init 2 (Py.b64 7 (-2)) = inl (ValueError msg_n_phi).
Proof.
  split.
  - apply (proj1 (init_half_integral_product 10 4 (Py.b64 8106479329266893 (-54))
                    (S754_finite false 5066549580791808 (-50))
                    ltac:(lia) ltac:(vm_compute; reflexivity) eq_refl
                    ltac:(vm_compute; reflexivity))); lia.
  - apply (proj2 (init_half_integral_product 2 3 (Py.b64 7 (-2))
                    (S754_finite false 7881299347898368 (-51))
                    ltac:(lia) ltac:(vm_compute; reflexivity) eq_refl
                    ltac:(vm_compute; reflexivity))); lia.
Defined.

(** ** Winding *)

Lemma strip_cell_in_build (n_r ring i j : Z) (f : Face) :
  0 <= i < n_r - 2 -> 0 <= j < ring ->
  In f (strip_cell ring (first_ring_start + i * ring)
                   (first_ring_start + i * ring + ring) j) ->
  In f (build_faces n_r ring).
Proof.
  intros Hi Hj Hf; rewrite build_faces_eq, !in_app_iff; left.
  apply in_flat_map; exists i; split; [apply range_In; lia|].
  unfold strip_ring; apply in_flat_map; exists j; split; [apply range_In; lia|exact Hf].
Qed.

Lemma fan_cell_in_build (n_r ring j : Z) :
  0 <= j < ring -> In (fan_cell ring j) (build_faces n_r ring).
Proof.
  intros Hj; rewrite build_faces_eq, !in_app_iff; right; right.
  apply in_map, range_In; exact Hj.
Qed.

(** X13.  The radial strips are wound consistently: the two triangles of
    a cell traverse their common diagonal in opposite directions, and so do
    a cell and its neighbour around the ring on their common radial edge,
    and a cell and its neighbour one ring outward on their common ring
    edge. *)
Theorem strips_wound_consistently (n_r ring i j : Z) :
  2 <= ring -> 0 <= i < n_r - 2 -> 0 <= j < ring ->
  let inner := first_ring_start + i * ring in
  let outer := inner + ring in
  let a := inner + j in
  let b := outer + j in
  let c := outer + (j + 1) mod ring in
  let d := inner + (j + 1) mod ring in
  strip_cell ring inner outer j = [(a, b, c); (a, c, d)] /\
  (In (c, a) (directed_edges (a, b, c)) /\ In (a, c) (directed_edges (a, c, d))) /\
  (exists t, In t (strip_cell ring inner outer ((j + 1) mod ring)) /\
             In t (build_faces n_r ring) /\
             In (c, d) (directed_edges (a, c, d)) /\ In (d, c) (directed_edges t)) /\
  (i + 1 < n_r - 2 ->
   exists t, In t (strip_cell ring outer (outer + ring) j) /\
             In t (build_faces n_r ring) /\
             In (b, c) (directed_edges (a, b, c)) /\ In (c, b) (directed_edges t)).
Proof.
  intros Hp Hi Hj inner outer a b c d.
  split; [reflexivity|]; split; [|split].
  - cbn [directed_edges In]; auto.
  - eexists; split; [left; reflexivity|]; split.
    + apply (strip_cell_in_build n_r ring i ((j + 1) mod ring));
        [lia|apply Z.mod_pos_bound; lia|left; reflexivity].
    + cbn [directed_edges In]; auto.
  - intros Hi'; eexists; split; [right; left; reflexivity|]; split.
    + apply (strip_cell_in_build n_r ring (i + 1) j); [lia|lia|].
      unfold strip_cell; cbv zeta; right; left.
      subst a b c d outer inner; split_pairs; ring.
    + cbn [directed_edges In]; auto.
Qed.

Lemma strips_wound_consistently_4_6 :
  strip_cell 6 2 8 5 = [(7, 13, 8); (7, 8, 2)] /\
  (In (8, 7) (directed_edges (7, 13, 8)) /\ In (7, 8) (directed_edges (7, 8, 2))).
Proof.
  destruct (strips_wound_consistently 4 6 0 5) as (Hc & Hd & _); [lia|lia|lia|].
  split; [exact Hc|exact Hd].
Defined.

(** X14.  The central fan is wound against the strips: for [n_r >= 3] the
    fan triangle of index [j] and the second triangle of the innermost
    strip cell of index [j], both in the returned face list, traverse their
    common edge from ring-0 vertex [j+1] to ring-0 vertex [j] in the same
    direction. *)
Theorem fan_wound_against_strips (n_r ring j : Z) :
  3 <= n_r -> 2 <= ring -> 0 <= j < ring ->
  let v2 := first_ring_start + j in
  let v3 := first_ring_start + (j + 1) mod ring in
  let c := first_ring_start + ring + (j + 1) mod ring in
  In (centre_idx, v3, v2) (build_faces n_r ring) /\
  In (v2, c, v3) (build_faces n_r ring) /\
  In (v3, v2) (directed_edges (centre_idx, v3, v2)) /\
  In (v3, v2) (directed_edges (v2, c, v3)).
Proof.
  intros Hr Hp Hj v2 v3 c.
  split; [|split; [|split]].
  - exact (fan_cell_in_build n_r ring j Hj).
  - apply (strip_cell_in_build n_r ring 0 j); [lia|lia|].
    unfold strip_cell; cbv zeta; right; left.
    subst v2 v3 c; split_pairs; ring.
  - cbn [directed_edges In]; auto.
  - cbn [directed_edges In]; auto.
Qed.

Lemma fan_wound_against_strips_4_6 :
  In (1, 3, 2) (build_faces 4 6) /\
  In (2, 9, 3) (build_faces 4 6) /\
  In (3, 2) (directed_edges (1, 3, 2)) /\
  In (3, 2) (directed_edges (2, 9, 3)).
Proof. apply (fan_wound_against_strips 4 6 0); lia. Defined.

(** ** Three-fold symmetry of the mesh *)

Section MeshSymmetry.

#[local] Open Scope R_scope.

Lemma cos_sin_third_turn (x : R) :
  cos (x + 2 * (PI / 3)) = - (1 / 2) * cos x - sqrt 3 / 2 * sin x /\
  sin (x + 2 * (PI / 3)) = - (1 / 2) * sin x + sqrt 3 / 2 * cos x.
Proof.
  rewrite cos_plus, sin_plus, cos_2PI3, sin_2PI3; split; field.
Qed.

Lemma cos_sin_full_turn (x : R) :
  cos (x - 2 * PI) = cos x /\ sin (x - 2 * PI) = sin x.
Proof.
  pose proof (cos_period (x - 2 * PI) 1) as Hc.
  pose proof (sin_period (x - 2 * PI) 1) as Hs.
  replace (x - 2 * PI + 2 * INR 1 * PI) with x in * by (simpl; ring).
  split; congruence.
Qed.

Lemma grid_sample_third_turn (n_r ring m k : Z) :
  (3 <= ring)%Z -> (ring mod 3 = 0)%Z -> (0 <= k < ring)%Z ->
  Spec.grid_sample n_r ring m ((k + ring / 3) mod ring)
  = Cmul omega3 (Spec.grid_sample n_r ring m k).
Proof.
  intros Hp H3 Hk.
  pose proof (Z.div_mod ring 3 ltac:(lia)) as Hd; rewrite H3, Z.add_0_r in Hd.
  set (t := (ring / 3)%Z) in *.
  assert (Hn : 0 < IZR ring) by (apply IZR_lt; lia).
  assert (Ht : IZR ring = 3 * IZR t) by (rewrite Hd at 1; now rewrite mult_IZR).
  assert (Ht0 : IZR t <> 0) by (intros Hz; rewrite Ht, Hz in Hn; lra).
  unfold Spec.grid_sample, Cmul, omega3; cbv zeta; cbn [fst snd].
  set (r := IZR m / IZR (n_r - 1)); set (phi := 2 * PI * IZR k / IZR ring).
  destruct (cos_sin_third_turn phi) as [Hc Hs].
  destruct (mod_wrap ring (k + t)) as [[_ E]|[_ E]]; try lia; rewrite E.
  - replace (2 * PI * IZR (k + t) / IZR ring) with (phi + 2 * (PI / 3))
      by (unfold phi; rewrite plus_IZR, Ht; field; exact Ht0).
    rewrite Hc, Hs; split_pairs; ring.
  - replace (2 * PI * IZR (k + t - ring) / IZR ring) with (phi + 2 * (PI / 3) - 2 * PI)
      by (unfold phi; rewrite minus_IZR, plus_IZR, Ht; field; exact Ht0).
    destruct (cos_sin_full_turn (phi + 2 * (PI / 3))) as [-> ->].
    rewrite Hc, Hs; split_pairs; ring.
Qed.

(** X15.  In exact arithmetic, when [n_phi] is a multiple of 3 the vertex
    list has the three-fold symmetry of the surface: on every ring, the
    exact value at the vertex a third of the ring further on is the
    rotation by a third of a turn of the exact value at angular index [k].
    (Nothing is stated about the rounded binary64 coordinates.) *)
Theorem mesh_threefold (self : BoysSurfaceGenerator) (i k : Z) :
  (3 <= n_phi self)%Z -> (n_phi self mod 3 = 0)%Z ->
  (0 <= i < n_r self - 1)%Z -> (0 <= k < n_phi self)%Z ->
  exists p,
    vertex_at (build self) (2 + i * n_phi self + k) = Some p /\
    vertex_at (build self) (2 + i * n_phi self + (k + n_phi self / 3) mod n_phi self)
    = Some (rot3 p).
Proof.
  intros Hp H3 Hi Hk.
  pose proof (Z.mod_pos_bound (k + n_phi self / 3) (n_phi self) ltac:(lia)) as Hk'.
  eexists; split; [apply (vertex_at_ring self i k Hi Hk)|].
  pose proof (vertex_at_ring self i _ Hi Hk') as Hv.
  unfold first_ring_start in Hv; rewrite Hv.
  now rewrite grid_sample_third_turn, xyz_omega3.
Qed.

Lemma mesh_threefold_4_6 :
  exists p,
    vertex_at (build {| n_r := 4; n_phi := 6 |}) 19 = Some p /\
    vertex_at (build {| n_r := 4; n_phi := 6 |}) 15 = Some (rot3 p).
Proof.
  exact (mesh_threefold {| n_r := 4; n_phi := 6 |} 2 5
           ltac:(simpl; lia) ltac:(reflexivity) ltac:(simpl; lia) ltac:(simpl; lia)).
Defined.

End MeshSymmetry.

(** ** No face is emitted twice *)

Section Distinct.

Context {A B : Type}.

Lemma NoDup_map_in (f : A -> B) (l : list A) :
  (forall x y, In x l -> In y l -> f x = f y -> x = y) ->
  NoDup l -> NoDup (map f l).
Proof.
  intros Hinj Hl; induction Hl as [|x l Hx Hl IH]; simpl; constructor.
  - rewrite in_map_iff; intros (y & E & Hy).
    apply Hinj in E; simpl; auto; subst y; contradiction.
  - apply IH; intros; apply Hinj; simpl; auto.
Qed.

Lemma NoDup_flat_map_in (f : A -> list B) (l : list A) :
  NoDup l ->
  (forall x, In x l -> NoDup (f x)) ->
  (forall x y b, In x l -> In y l -> In b (f x) -> In b (f y) -> x = y) ->
  NoDup (flat_map f l).
Proof.
  intros Hl; induction Hl as [|x l Hx Hl IH]; intros Hf Hd; simpl; [constructor|].
  apply NoDup_app.
  - apply Hf; simpl; auto.
  - apply IH; intros; [apply Hf|eapply Hd]; simpl; eauto.
  - intros b Hb Hb'; apply in_flat_map in Hb'; destruct Hb' as (y & Hy & Hby).
    assert (x = y) by (eapply Hd; simpl; eauto).
    subst y; contradiction.
Qed.

End Distinct.

Lemma range_NoDup (n : Z) : NoDup (Py.range n).
Proof.
  unfold Py.range; apply NoDup_map_in; [|apply seq_NoDup].
  intros x y _ _; apply Nat2Z.inj.
Qed.

Lemma NoDup_two {T : Type} (x y : T) : x <> y -> NoDup [x; y].
Proof.
  intros Hxy; constructor; [simpl; intros [E|[]]; congruence|].
  constructor; [simpl; tauto|constructor].
Qed.

(** The first entry of a face. *)
Lemma strip_cell_first (ring inner outer j : Z) (f : Face) :
  In f (strip_cell ring inner outer j) -> fst (fst f) = inner + j.
Proof. unfold strip_cell; cbv zeta; intros [<-|[<-|[]]]; reflexivity. Qed.

Lemma mobius_cell_first (n_r ring j : Z) (f : Face) :
  In f (mobius_cell n_r ring j) ->
  fst (fst f) = outer_ring_start n_r ring + (j + 1) mod ring.
Proof. unfold mobius_cell; cbv zeta; intros [<-|[<-|[]]]; reflexivity. Qed.

Lemma succ_mod_inj (ring j j' : Z) :
  2 <= ring -> 0 <= j < ring -> 0 <= j' < ring ->
  (j + 1) mod ring = (j' + 1) mod ring -> j = j'.
Proof.
  intros Hp Hj Hj' E.
  destruct (mod_wrap ring (j + 1)) as [[? E1]|[? E1]]; try lia;
  destruct (mod_wrap ring (j' + 1)) as [[? E2]|[? E2]]; lia.
Qed.

Lemma strips_NoDup (n_r ring : Z) :
  2 <= ring -> NoDup (flat_map (strip_ring ring) (Py.range (n_r - 2))).
Proof.
  intros Hp; apply NoDup_flat_map_in; [apply range_NoDup| |].
  - intros i _; unfold strip_ring.
    apply NoDup_flat_map_in; [apply range_NoDup| |].
    + intros j Hj; apply range_In in Hj; unfold strip_cell; cbv zeta.
      apply NoDup_two; intros [= E _].
      destruct (mod_wrap ring (j + 1)) as [[? E1]|[? E1]]; lia.
    + intros j j' f _ _ Hf Hf'.
      apply strip_cell_first in Hf, Hf'; lia.
  - intros i i' f Hi Hi' Hf Hf'; apply range_In in Hi, Hi'.
    unfold strip_ring in Hf, Hf'.
    apply in_flat_map in Hf, Hf'.
    destruct Hf as (j & Hj & Hf), Hf' as (j' & Hj' & Hf').
    apply range_In in Hj, Hj'.
    apply strip_cell_first in Hf, Hf'.
    assert (E : i * ring + j = i' * ring + j') by lia.
    destruct (Z.lt_trichotomy i i') as [Hlt|[Heq|Hgt]]; [nia|assumption|nia].
Qed.

Lemma mobius_NoDup (n_r ring : Z) :
  2 <= ring -> NoDup (flat_map (mobius_cell n_r ring) (Py.range ring)).
Proof.
  intros Hp; apply NoDup_flat_map_in; [apply range_NoDup| |].
  - intros j Hj; apply range_In in Hj; unfold mobius_cell; cbv zeta.
    apply NoDup_two; intros [= E _].
    assert (E' : (j + half_turn ring) mod ring = (j + half_turn ring + 1) mod ring) by lia.
    pose proof (Z.mod_pos_bound (j + half_turn ring) ring ltac:(lia)) as Hb.
    rewrite <- (Z.add_mod_idemp_l (j + half_turn ring) 1 ring) in E' by lia.
    destruct (mod_wrap ring ((j + half_turn ring) mod ring + 1)) as [[? E1]|[? E1]]; lia.
  - intros j j' f Hj Hj' Hf Hf'; apply range_In in Hj, Hj'.
    apply mobius_cell_first in Hf, Hf'.
    apply (succ_mod_inj ring); try assumption; lia.
Qed.

Lemma fan_NoDup (ring : Z) : NoDup (map (fan_cell ring) (Py.range ring)).
Proof.
  apply NoDup_map_in; [|apply range_NoDup].
  intros j j' _ _; unfold fan_cell; cbv zeta; intros E.
  apply (f_equal snd) in E; cbn [snd] in E; lia.
Qed.

(** X16.  No face is emitted twice: for [n_r >= 2] and [n_phi >= 2] the
    index triples of the returned face list are pairwise different. *)
Theorem faces_NoDup (self : BoysSurfaceGenerator) :
  2 <= n_r self -> 2 <= n_phi self -> NoDup (faces (build self)).
Proof.
  intros Hr Hp; unfold build; cbv zeta; cbn [faces].
  set (n := n_r self) in *; set (ring := n_phi self) in *.
  rewrite build_faces_eq.
  assert (Hlo : 0 <= (n - 2) * ring) by nia.
  apply NoDup_app; [now apply strips_NoDup| |].
  - apply NoDup_app; [now apply mobius_NoDup|apply fan_NoDup|].
    intros f Hf Hf'.
    apply in_flat_map in Hf; destruct Hf as (j & Hj & Hf).
    apply mobius_cell_first in Hf.
    apply in_map_iff in Hf'; destruct Hf' as (j' & <- & _).
    unfold fan_cell, centre_idx, outer_ring_start, first_ring_start in Hf; cbn [fst] in Hf.
    pose proof (Z.mod_pos_bound (j + 1) ring ltac:(lia)); lia.
  - intros f Hf Hf'.
    apply in_flat_map in Hf; destruct Hf as (i & Hi & Hf).
    unfold strip_ring in Hf; apply in_flat_map in Hf; destruct Hf as (j & Hj & Hf).
    apply range_In in Hi, Hj; apply strip_cell_first in Hf.
    assert (Hi' : i * ring + ring <= (n - 2) * ring) by nia.
    apply in_app_iff in Hf'; destruct Hf' as [Hf'|Hf'].
    + apply in_flat_map in Hf'; destruct Hf' as (j' & Hj' & Hf').
      apply mobius_cell_first in Hf'.
      unfold outer_ring_start, first_ring_start in *.
      pose proof (Z.mod_pos_bound (j' + 1) ring ltac:(lia)); lia.
    + apply in_map_iff in Hf'; destruct Hf' as (j' & <- & _).
      unfold fan_cell, centre_idx, first_ring_start in Hf; cbn [fst] in Hf.
      assert (0 <= i * ring) by nia; lia.
Qed.

Lemma faces_NoDup_4_6 : NoDup (faces (build {| n_r := 4; n_phi := 6 |})).
Proof. apply (faces_NoDup {| n_r := 4; n_phi := 6 |}); simpl; lia. Defined.

(** ** Radii of the rings *)

Section Radii.

#[local] Open Scope R_scope.

Lemma grid_sample_radius (n_r ring i k : Z) :
  (0 <= i < n_r - 1)%Z ->
  Cnorm2 (Spec.grid_sample n_r ring (i + 1) k) = (IZR (i + 1) / IZR (n_r - 1)) ^ 2 /\
  0 < Cnorm2 (Spec.grid_sample n_r ring (i + 1) k) <= 1 /\
  (Cnorm2 (Spec.grid_sample n_r ring (i + 1) k) = 1 <-> i = (n_r - 2)%Z).
Proof.
  intros Hi; rewrite grid_sample_norm2.
  assert (Hn : 0 < IZR (n_r - 1)) by (apply IZR_lt; lia).
  assert (Hm : 0 < IZR (i + 1)) by (apply IZR_lt; lia).
  assert (Hmn : IZR (i + 1) <= IZR (n_r - 1)) by (apply IZR_le; lia).
  set (r := IZR (i + 1) / IZR (n_r - 1)).
  assert (Hr0 : 0 < r) by (apply Rdiv_lt_0_compat; assumption).
  assert (Hrn : r * IZR (n_r - 1) = IZR (i + 1)) by (unfold r; field; lra).
  assert (Hr1 : r <= 1) by nra.
  split; [reflexivity|]; split; [nra|]; split.
  - intros E.
    assert (r = 1) by nra.
    assert (IZR (i + 1) = IZR (n_r - 1)) by nra.
    apply eq_IZR in H0; lia.
  - intros E.
    assert (Ei : IZR (i + 1) = IZR (n_r - 1)) by (f_equal; lia).
    assert (r = 1) by nra.
    nra.
Qed.

(** X17.  In exact arithmetic, the parameter grid that step 1 of [build]
    constructs ([linspace], [meshgrid], [R * exp(1j * Phi)], flattened ring
    by ring) holds at position [i * n_phi + k] a point of modulus
    [(i+1)/(n_r-1)]: every ring lies in the punctured closed unit disk, and
    a ring lies on the unit circle exactly when it is the outermost one. *)
Theorem ring_radius (n_r ring i k : Z) :
  (0 <= i < n_r - 1)%Z -> (0 <= k < ring)%Z ->
  exists w,
    nth_error (Grid.w_grid n_r ring) (Z.to_nat (i * ring + k)) = Some w /\
    Cnorm2 w = (IZR (i + 1) / IZR (n_r - 1)) ^ 2 /\
    0 < Cnorm2 w <= 1 /\
    (Cnorm2 w = 1 <-> i = (n_r - 2)%Z).
Proof.
  intros Hi Hk; eexists; split; [apply w_grid_nth; assumption|].
  apply grid_sample_radius; assumption.
Qed.

Lemma ring_radius_4_6 :
  exists w,
    nth_error (Grid.w_grid 4 6) (Z.to_nat (2 * 6 + 0)) = Some w /\
    Cnorm2 w = (IZR (2 + 1) / IZR (4 - 1)) ^ 2 /\
    0 < Cnorm2 w <= 1 /\
    (Cnorm2 w = 1 <-> 2%Z = (4 - 2)%Z).
Proof. apply (ring_radius 4 6 2 0); lia. Defined.

End Radii.

(** ** Winding of the fan and of the join *)

(** X18.  The central fan is wound consistently within itself, and so are
    the two triangles of each cell of the half-turn join: neighbouring fan
    triangles traverse their common spoke in opposite directions, and the
    two triangles of a join cell traverse their common diagonal in opposite
    directions. *)
Theorem fan_and_join_winding (n_r ring j : Z) :
  2 <= ring -> 0 <= j < ring ->
  let v3 := first_ring_start + (j + 1) mod ring in
  let an := outer_ring_start n_r ring + (j + 1) mod ring in
  let b := outer_ring_start n_r ring + (j + half_turn ring) mod ring in
  (In (centre_idx, v3) (directed_edges (fan_cell ring j)) /\
   In (v3, centre_idx) (directed_edges (fan_cell ring ((j + 1) mod ring))) /\
   In (fan_cell ring ((j + 1) mod ring)) (build_faces n_r ring)) /\
  (exists t1 t2,
     mobius_cell n_r ring j = [t1; t2] /\
     In (an, b) (directed_edges t1) /\ In (b, an) (directed_edges t2)).
Proof.
  intros Hp Hj v3 an b; subst v3 an b; split; [split; [|split]|].
  - unfold fan_cell; cbv zeta; cbn [directed_edges In]; left; reflexivity.
  - unfold fan_cell; cbv zeta; cbn [directed_edges In]; right; right; left; reflexivity.
  - apply fan_cell_in_build, Z.mod_pos_bound; lia.
  - unfold mobius_cell; cbv zeta; do 2 eexists.
    split; [reflexivity|]; cbn [directed_edges In].
    split; [left; reflexivity|right; right; left; reflexivity].
Qed.

Lemma fan_and_join_winding_6_5 :
  In (1, 2) (directed_edges (fan_cell 6 5)) /\
  In (2, 1) (directed_edges (fan_cell 6 0)).
Proof.
  destruct (fan_and_join_winding 4 6 5) as ((H1 & H2 & _) & _); [lia|lia|].
  split; [exact H1|exact H2].
Defined.
